(** * Ledger collectors and style-configuration resolver

    A shallow embedding of the metrics ledger ([metrics/types],
    [metrics/storage], [metrics/collector], [metrics/issues]), of the
    metrics wrapper ([tools/wrapper]) and of the layered style
    configuration store ([config/styles]), together with the properties
    stated for them.

    Conventions of the embedding.
    - A JavaScript [number] that holds a duration, or a total or an average
      of durations, is a binary64 [float], and [+], [/] and [Math.round] on
      it are the IEEE 754 operations.  A counter that the program only
      increments, an index or a size is a [Z] or a [nat].
    - A plain object used as a dictionary is a [gmap] holding its own
      properties, read through [js_get], [js_in] and [js_assign], which
      follow the prototype chain as the engine does.  What the program can
      find on, and write to, the built-in objects is the [Engine].
    - Wall-clock reads ([new Date().toISOString()], [Date.now()]) and
      [Math.random()] are inputs of the operation that performs them.
    - [console.error] appends a line to the [console] component of the
      state; a promise chained on [writeQueue] is a pending flush that a
      later [Flush] event runs.
    - Paths are POSIX paths. *)

From Stdlib Require Import ZArith Lia Ascii PrimFloat.
From Stdlib Require FloatOps SpecFloat Uint63.
From stdpp Require Import gmap strings list fin_maps pretty.
From Equations Require Import Equations.

Local Open Scope string_scope.
Local Open Scope Z_scope.

(** An [unknown] JSON payload (tool arguments, tool results). *)
#[warnings="-register-all"] Inductive Json : Type :=
| JNull
| JBool (b : bool)
| JNum (n : float)
| JStr (s : string)
| JArr (items : list Json)
| JObj (fields : list (string * Json)).

(** The outcome of a call that may throw. *)
Inductive Outcome (A : Type) : Type :=
| Returned (value : A)
| Thrown (message : string).
Arguments Returned {A} value.
Arguments Thrown {A} message.

(** ** Numbers *)

(** The number that an integer of magnitude below 2^63 denotes: the
    integer itself below 2^53, and the nearest number beyond. *)
Definition Z_to_number (z : Z) : float :=
  match z with
  | Z0 => PrimFloat.zero
  | Zpos _ => PrimFloat.of_uint63 (Uint63.of_Z z)
  | Zneg p => PrimFloat.opp (PrimFloat.of_uint63 (Uint63.of_Z (Zpos p)))
  end.

(** [Math.round]: the integer nearest to [x], a tie going towards plus
    infinity; zeros, infinities and NaN are returned as they are, and so is
    a number without fractional part.  A finite [x] is [v × 2^e] for
    integers [v] and [e], and for a negative [e] the result is the floor of
    [x + 1/2], that is of [(2v + 2^-e) / 2^(1-e)], with the sign of [x]
    when it is zero. *)
Definition Math_round (x : float) : float :=
  match FloatOps.Prim2SF x with
  | SpecFloat.S754_finite negative m e =>
      if 0 <=? e then x
      else
        let v := if negative then Zneg m else Zpos m in
        let r := (2 * v + 2 ^ (- e)) / 2 ^ (1 - e) in
        if r =? 0 then (if negative then PrimFloat.neg_zero else PrimFloat.zero)
        else Z_to_number r
  | _ => x
  end.

(** ** Plain objects used as dictionaries *)

(** The names of the properties of [Object.prototype], which every plain
    object inherits. *)
Definition Object_prototype_names : list string :=
  [ "constructor"; "__defineGetter__"; "__defineSetter__"; "hasOwnProperty";
    "__lookupGetter__"; "__lookupSetter__"; "isPrototypeOf";
    "propertyIsEnumerable"; "toString"; "valueOf"; "__proto__";
    "toLocaleString" ].

(** The names of the string-keyed properties of [Array.prototype]
    (ECMAScript 2023), which an object inherits once an array has become
    its prototype. *)
Definition Array_prototype_names : list string :=
  [ "length"; "constructor"; "at"; "concat"; "copyWithin"; "fill"; "find";
    "findIndex"; "findLast"; "findLastIndex"; "lastIndexOf"; "pop"; "push";
    "reverse"; "shift"; "unshift"; "slice"; "sort"; "splice"; "includes";
    "indexOf"; "join"; "keys"; "entries"; "values"; "forEach"; "filter";
    "flat"; "flatMap"; "map"; "every"; "some"; "reduce"; "reduceRight";
    "toLocaleString"; "toString"; "toReversed"; "toSorted"; "toSpliced";
    "with" ].

(** The names of the properties of a statistics record. *)
Definition statistic_keys : list string :=
  [ "call_count"; "total_duration_ms"; "avg_duration_ms"; "last_used";
    "success_count"; "error_count" ].

(** The statistics properties that [updateToolStats] has set on a built-in
    object.  The three numeric properties it always sets are NaN from the
    first assignment on, being [undefined + 1], [undefined + duration] and
    [Math.round(NaN / NaN)]; [success_count] and [error_count] are NaN once
    set, and absent until then. *)
Record EngineStats : Type := mkEngineStats {
  e_last_used : string;
  e_success_count : bool;
  e_error_count : bool
}.

(** The built-in objects as this program meets them: the names of the
    properties of [Array.prototype], and the statistics properties written
    so far on the members of [Object.prototype], indexed by the member's
    name; the index ["__proto__"] stands for [Object.prototype] itself,
    which is what the accessor of that name returns. *)
Record Engine : Type := mkEngine {
  Array_prototype : list string;
  statistics : gmap string EngineStats
}.

(** The built-in objects of a process that has just started. *)
Definition pristine : Engine :=
  {| Array_prototype := Array_prototype_names; statistics := ∅ |}.

(** What a property read finds on [Object.prototype]: a built-in object
    (the method of that name; [Object] for ["constructor"];
    [Object.prototype] for ["__proto__"]), or a statistics property put
    there by [updateToolStats], which is NaN or a time stamp. *)
Inductive Inherited : Type :=
| Builtin (name : string)
| NaN
| Str (s : string).

(** The statistics property [key] of a built-in object on which
    [updateToolStats] has written, if it has that property. *)
Definition written_property (written : EngineStats) (key : string)
  : option Inherited :=
  if bool_decide (key ∈ ["call_count"; "total_duration_ms"; "avg_duration_ms"])
  then Some NaN
  else if decide (key = "last_used") then Some (Str (e_last_used written))
  else if decide (key = "success_count") then
    (if e_success_count written then Some NaN else None)
  else if decide (key = "error_count") then
    (if e_error_count written then Some NaN else None)
  else None.

(** The property [key] of [Object.prototype], if it has one. *)
Definition inherited (e : Engine) (key : string) : option Inherited :=
  if bool_decide (key ∈ Object_prototype_names) then Some (Builtin key)
  else
    match statistics e !! "__proto__" with
    | None => None
    | Some written => written_property written key
    end.

(** Truthiness: an object is truthy, NaN is not, a string is unless empty. *)
Definition truthy (v : Inherited) : bool :=
  match v with
  | Builtin _ => true
  | NaN => false
  | Str s => negb (bool_decide (s = ""))
  end.

(** The property key that a value used as one denotes (V8's rendering of a
    built-in function). *)
Definition to_key (v : Inherited) : string :=
  match v with
  | Builtin name =>
      if decide (name = "__proto__") then "[object Object]"
      else if decide (name = "constructor")
           then "function Object() { [native code] }"
           else "function " ++ name ++ "() { [native code] }"
  | NaN => "NaN"
  | Str s => s
  end.

(** The result of reading a property of a dictionary: a value of the
    dictionary itself, or what the prototype chain gives. *)
Inductive Lookup (V : Type) : Type :=
| Own_value (v : V)
| From_prototype (i : Inherited).
Arguments Own_value {V} v.
Arguments From_prototype {V} i.

(** [dict[key]] for a dictionary whose prototype is [Object.prototype];
    [None] is [undefined]. *)
Definition js_get {V : Type} (e : Engine) (dict : gmap string V) (key : string)
  : option (Lookup V) :=
  match dict !! key with
  | Some v => Some (Own_value v)
  | None => From_prototype <$> inherited e key
  end.

(** [key in dict] for such a dictionary. *)
Definition js_in {V : Type} (e : Engine) (dict : gmap string V) (key : string)
  : bool :=
  bool_decide (is_Some (js_get e dict key)).

(** [dict[key] = v] for such a dictionary and a value [v] that is not an
    object.  Every inherited data property is writable, so the assignment
    creates or updates an own property; except that ["__proto__"] is an
    accessor of [Object.prototype], whose setter ignores such a [v], so that
    nothing is stored unless the dictionary has an own property of that
    name already, as [JSON.parse] can create. *)
Definition js_assign {V : Type} (key : string) (v : V) (dict : gmap string V)
  : gmap string V :=
  if decide (key = "__proto__" ∧ dict !! key = None) then dict
  else <[key := v]> dict.

(** The key that a value read from a dictionary of strings denotes. *)
Definition property_key (v : Lookup string) : string :=
  match v with
  | Own_value s => s
  | From_prototype i => to_key i
  end.

(** A name that no plain object inherits, whatever this program has
    written on [Object.prototype]. *)
Definition plain_name (name : string) : Prop :=
  (name ∉ Object_prototype_names) ∧ (name ∉ statistic_keys).

Module Metrics.

(** ** metrics/types *)

Record ToolInvocation : Type := mkToolInvocation {
  tool : string;
  timestamp : string;
  duration_ms : float;
  reasoning : string;
  arguments : list (string * Json);
  success : bool;
  error : option string;
  result : option Json
}.

Record ToolStats : Type := mkToolStats {
  call_count : Z;
  total_duration_ms : float;
  avg_duration_ms : float;
  success_count : Z;
  error_count : Z;
  last_used : string
}.

Record MetricsData : Type := mkMetricsData {
  server_name : string;
  created_at : string;
  updated_at : string;
  total_invocations : Z;
  tool_stats : gmap string ToolStats;
  invocations : list ToolInvocation
}.

Definition createEmptyMetricsData (serverName now : string) : MetricsData :=
  {| server_name := serverName;
     created_at := now;
     updated_at := now;
     total_invocations := 0;
     tool_stats := ∅;
     invocations := [] |}.

(** ** metrics/storage: [trimInvocationsForSize] *)

Section WithSerializer.

(** [JSON.stringify(data).length], the size estimate of the trimming loop.
    The serializer is a built-in; every result below holds for any
    deterministic size measure of the document. *)
Variable JSON_stringify_length : MetricsData → nat.

(** [Math.max(1, Math.floor(length * 0.25))] *)
Definition removeCount (len : nat) : nat := Nat.max 1 (len / 4).

(** The loop test [currentSize > maxSizeBytes && data.invocations.length > 0],
    [currentSize] being the size of the current document. *)
Definition trim_cond (data : MetricsData) (maxSizeBytes : Z) : bool :=
  (maxSizeBytes <? Z.of_nat (JSON_stringify_length data))
  && (0 <? length (invocations data))%nat.

(** The loop body: [data.invocations = data.invocations.slice(removeCount)]. *)
Definition trim_body (data : MetricsData) : MetricsData :=
  {| server_name := server_name data;
     created_at := created_at data;
     updated_at := updated_at data;
     total_invocations := total_invocations data;
     tool_stats := tool_stats data;
     invocations :=
       drop (removeCount (length (invocations data))) (invocations data) |}.

Equations? trimInvocationsForSize (data : MetricsData) (maxSizeBytes : Z)
  : MetricsData by wf (length (invocations data)) lt :=
  trimInvocationsForSize data maxSizeBytes
    with decide (trim_cond data maxSizeBytes = true) := {
    | left Hcond => trimInvocationsForSize (trim_body data) maxSizeBytes
    | right _ => data }.
Proof.
  (* each iteration drops [removeCount _ ≥ 1] entries of a non-empty sequence *)
  simpl. rewrite length_drop.
  apply andb_true_iff in Hcond as [_ Hlen%Nat.ltb_lt].
  unfold removeCount. lia.
Qed.

(** The fields the loop never assigns. *)
Definition same_aggregates (d d' : MetricsData) : Prop :=
  server_name d' = server_name d
  ∧ created_at d' = created_at d
  ∧ updated_at d' = updated_at d
  ∧ total_invocations d' = total_invocations d
  ∧ tool_stats d' = tool_stats d.

(** The metrics file: absent; present but not readable as JSON; JSON
    rejected by the validation of [loadMetrics] (a wrong type for
    [server_name] or [invocations]); or holding a document. *)
Inductive MetricsFile : Type :=
| Missing
| Unreadable
| Corrupt
| Stored (d : MetricsData).

(** [loadMetrics] *)
Definition loadMetrics (file : MetricsFile) (serverName now : string)
  : MetricsData :=
  match file with
  | Stored d => d
  | Missing | Unreadable | Corrupt => createEmptyMetricsData serverName now
  end.

(** [initializeMetricsFile] *)
Definition initializeMetricsFile (file : MetricsFile) (serverName now : string)
  : MetricsFile :=
  match file with
  | Missing => Stored (createEmptyMetricsData serverName now)
  | _ => file
  end.

(** ** metrics/collector *)

(** The collector object, with the pieces of its environment that its
    methods touch: the metrics file, the error console and the built-in
    objects of the process. *)
Record MetricsCollector : Type := mkMetricsCollector {
  data : MetricsData;
  serverName : string;
  maxSizeBytes : Z;
  writeQueue : nat;
  initialized : bool;
  file : MetricsFile;
  console : list string;
  engine : Engine
}.

(** [new MetricsCollector(serverName, maxSizeBytes)], in a process that has
    just started, as [createServer] creates the collector. *)
Definition new_MetricsCollector (name : string) (maxSize : Z) (now : string)
    (f : MetricsFile) : MetricsCollector :=
  {| data := createEmptyMetricsData name now;
     serverName := name;
     maxSizeBytes := maxSize;
     writeQueue := 0;
     initialized := false;
     file := f;
     console := [];
     engine := pristine |}.

(** [initialize], in the case where the file system does not throw. *)
Definition initialize (now : string) (c : MetricsCollector) : MetricsCollector :=
  let f := initializeMetricsFile (file c) (serverName c) now in
  {| data := loadMetrics f (serverName c) now;
     serverName := serverName c;
     maxSizeBytes := maxSizeBytes c;
     writeQueue := writeQueue c;
     initialized := true;
     file := f;
     console :=
       match f with
       | Corrupt => console c ++ ["Metrics file corrupted, creating new one"]
       | Unreadable => console c ++ ["Failed to load metrics:"]
       | _ => console c
       end;
     engine := engine c |}.

(** The statistics record of a tool after [invocation], given its record
    (if any) before: the two branches of [updateToolStats]. *)
Definition updated_stats (existing : option ToolStats)
    (invocation : ToolInvocation) : ToolStats :=
  match existing with
  | Some existing =>
      let count := call_count existing + 1 in
      let total := (total_duration_ms existing + duration_ms invocation)%float in
      {| call_count := count;
         total_duration_ms := total;
         avg_duration_ms := Math_round (total / Z_to_number count)%float;
         success_count :=
           if success invocation then success_count existing + 1
           else success_count existing;
         error_count :=
           if success invocation then error_count existing
           else error_count existing + 1;
         last_used := timestamp invocation |}
  | None =>
      {| call_count := 1;
         total_duration_ms := duration_ms invocation;
         avg_duration_ms := duration_ms invocation;
         success_count := if success invocation then 1 else 0;
         error_count := if success invocation then 0 else 1;
         last_used := timestamp invocation |}
  end.

(** The first branch of [updateToolStats] run on the built-in object
    [name]: its statistics properties afterwards. *)
Definition touched (name : string) (invocation : ToolInvocation) (e : Engine)
  : Engine :=
  let before := statistics e !! name in
  {| Array_prototype := Array_prototype e;
     statistics :=
       <[name :=
           {| e_last_used := timestamp invocation;
              e_success_count :=
                from_option e_success_count false before || success invocation;
              e_error_count :=
                from_option e_error_count false before
                || negb (success invocation) |}]> (statistics e) |}.

(** [d] with the statistics of [toolName] set to [stats]. *)
Definition with_tool_stats (toolName : string) (stats : ToolStats)
    (d : MetricsData) : MetricsData :=
  {| server_name := server_name d;
     created_at := created_at d;
     updated_at := updated_at d;
     total_invocations := total_invocations d;
     tool_stats := <[toolName := stats]> (tool_stats d);
     invocations := invocations d |}.

(** [updateToolStats].  [existing] is whatever
    [this.data.tool_stats[toolName]] evaluates to.  An own entry is
    updated.  A member of [Object.prototype] is truthy too: the first
    branch then writes the statistics on that built-in object and the
    dictionary gets no entry.  A non-empty string inherited from
    [Object.prototype] is a truthy primitive, and the increment of its
    [call_count] throws a TypeError, the code being strict.  In the
    remaining cases [existing] is falsy and an entry is created. *)
Definition updateToolStats (invocation : ToolInvocation) (e : Engine)
    (d : MetricsData) : Outcome (Engine * MetricsData) :=
  let toolName := tool invocation in
  match js_get e (tool_stats d) toolName with
  | Some (Own_value existing) =>
      Returned (e, with_tool_stats toolName
                     (updated_stats (Some existing) invocation) d)
  | Some (From_prototype (Builtin name)) =>
      Returned (touched name invocation e, d)
  | Some (From_prototype (Str s)) =>
      if decide (s = "") then
        Returned (e, with_tool_stats toolName (updated_stats None invocation) d)
      else
        Thrown ("Cannot create property 'call_count' on string '" ++ s ++ "'")
  | Some (From_prototype NaN) | None =>
      Returned (e, with_tool_stats toolName (updated_stats None invocation) d)
  end.

(** The three statements of [record] before the call of
    [updateToolStats]; [now] is the value of [new Date().toISOString()]. *)
Definition pushed (now : string) (invocation : ToolInvocation)
    (d : MetricsData) : MetricsData :=
  {| server_name := server_name d;
     created_at := created_at d;
     updated_at := now;
     total_invocations := total_invocations d + 1;
     tool_stats := tool_stats d;
     invocations := invocations d ++ [invocation] |}.

(** [record]: the collector after the call.  When [updateToolStats]
    throws, the invocation has been pushed and counted and no flush is
    queued. *)
Definition record (now : string) (invocation : ToolInvocation)
    (c : MetricsCollector) : MetricsCollector :=
  if negb (initialized c) then
    {| data := data c;
       serverName := serverName c;
       maxSizeBytes := maxSizeBytes c;
       writeQueue := writeQueue c;
       initialized := initialized c;
       file := file c;
       console :=
         console c ++ ["MetricsCollector not initialized, skipping record"];
       engine := engine c |}
  else
    match updateToolStats invocation (engine c) (pushed now invocation (data c)) with
    | Returned (e, d) =>
        {| data := d;
           serverName := serverName c;
           maxSizeBytes := maxSizeBytes c;
           writeQueue := S (writeQueue c);
           initialized := initialized c;
           file := file c;
           console := console c;
           engine := e |}
    | Thrown _ =>
        {| data := pushed now invocation (data c);
           serverName := serverName c;
           maxSizeBytes := maxSizeBytes c;
           writeQueue := writeQueue c;
           initialized := initialized c;
           file := file c;
           console := console c;
           engine := engine c |}
    end.


(** [persistToDisk]; [write_ok] tells whether [saveMetrics] succeeds.  The
    [file] component is written as it is when the document's [server_name]
    is the collector's [serverName], which holds for every document that
    the collector created, and when no call of [record] comes between the
    trim and the write. *)
Definition persistToDisk (write_ok : bool) (c : MetricsCollector)
  : MetricsCollector :=
  let trimmed := trimInvocationsForSize (data c) (maxSizeBytes c) in
  {| data := trimmed;
     serverName := serverName c;
     maxSizeBytes := maxSizeBytes c;
     writeQueue := writeQueue c;
     initialized := initialized c;
     file := if write_ok then Stored trimmed else file c;
     console :=
       if write_ok then console c
       else console c ++ ["Failed to save metrics:"];
     engine := engine c |}.

(** What can happen to a collector: a call of [record], or the event loop
    running the oldest flush chained on [writeQueue]. *)
Inductive Event : Type :=
| Record_ (now : string) (invocation : ToolInvocation)
| Flush (write_ok : bool).

Definition step (c : MetricsCollector) (e : Event) : MetricsCollector :=
  match e with
  | Record_ now invocation => record now invocation c
  | Flush write_ok =>
      match writeQueue c with
      | O => c
      | S pending =>
          let c' := persistToDisk write_ok c in
          {| data := data c';
             serverName := serverName c';
             maxSizeBytes := maxSizeBytes c';
             writeQueue := pending;
             initialized := initialized c';
             file := file c';
             console := console c';
             engine := engine c' |}
      end
  end.

Definition run (events : list Event) (c : MetricsCollector) : MetricsCollector :=
  fold_left step events c.

(** The invocations of [name] among the events, in order. *)
Fixpoint recorded (name : string) (events : list Event) : list ToolInvocation :=
  match events with
  | [] => []
  | Record_ _ invocation :: rest =>
      if decide (tool invocation = name) then invocation :: recorded name rest
      else recorded name rest
  | Flush _ :: rest => recorded name rest
  end.

End WithSerializer.

(** ** Notions used to state the properties of the ledger *)

(** The durations of a non-empty list of invocations added up as the code
    adds them: from the first on, in order, each addition rounded. *)
Definition sum_durations (l : list ToolInvocation) : float :=
  match l with
  | [] => PrimFloat.zero
  | first :: others =>
      fold_left (λ total invocation, (total + duration_ms invocation)%float)
                others (duration_ms first)
  end.

(** The average that the code stores for the list [l] of the invocations of
    a tool: the duration itself for the first invocation, and from the
    second on [Math.round] of the total divided by the count. *)
Definition average_of (l : list ToolInvocation) : float :=
  match l with
  | [only] => duration_ms only
  | _ => Math_round (sum_durations l / Z_to_number (Z.of_nat (length l)))%float
  end.

(** The entry stored for a tool agrees with the list [l] of its recorded
    invocations. *)
Definition stats_agree (l : list ToolInvocation) (entry : option ToolStats)
  : Prop :=
  match entry with
  | None => l = []
  | Some st =>
      l ≠ []
      ∧ call_count st = Z.of_nat (length l)
      ∧ success_count st
        = Z.of_nat (length (filter (λ i, success i = true) l))
      ∧ error_count st
        = Z.of_nat (length (filter (λ i, success i = false) l))
      ∧ (∃ newest, last l = Some newest ∧ last_used st = timestamp newest)
      ∧ total_duration_ms st = sum_durations l
      ∧ avg_duration_ms st = average_of l
  end.

(** A crude stand-in for the serializer, to run the loop on examples:
    a fixed overhead plus a fixed cost for each invocation held. *)
Definition sample_length (d : MetricsData) : nat :=
  (100 + 50 * length (invocations d))%nat.

Definition sample_invocation (name : string) (duration : Z) (ok : bool)
  : ToolInvocation :=
  {| tool := name;
     timestamp := "2024-01-01T00:00:00.000Z";
     duration_ms := Z_to_number duration;
     reasoning := "r";
     arguments := [];
     success := ok;
     error := if ok then None else Some "failed";
     result := None |}.

(** An invocation whose duration is not a whole number of milliseconds. *)
Definition fractional_invocation (name : string) (duration : float)
  : ToolInvocation :=
  {| tool := name;
     timestamp := "2024-01-01T00:00:00.000Z";
     duration_ms := duration;
     reasoning := "r";
     arguments := [];
     success := true;
     error := None;
     result := None |}.

(** A collector created for a server without a metrics file, with a
    maximum of 220 characters, and initialized. *)
Definition sample_collector : MetricsCollector :=
  initialize "2024-01-01T00:00:00.000Z"
    (new_MetricsCollector "srv" 220 "2024-01-01T00:00:00.000Z" Missing).

(** Three calls of the tool "search", lasting 100, 200 and 300 ms, a call
    of another tool, and the flushes the calls queued. *)
Definition sample_events : list Event :=
  [ Record_ "t1" (sample_invocation "search" 100 true);
    Record_ "t2" (sample_invocation "search" 200 false);
    Flush true;
    Record_ "t3" (sample_invocation "echo" 7 true);
    Record_ "t4" (sample_invocation "search" 300 true);
    Flush false; Flush true; Flush true ].

(** ** Further notions for the ledger *)

(** All the invocations that the events hand to [record], in order. *)
Fixpoint records_of (events : list Event) : list ToolInvocation :=
  match events with
  | [] => []
  | Record_ _ invocation :: rest => invocation :: records_of rest
  | Flush _ :: rest => records_of rest
  end.


End Metrics.

Module Issues.

(** ** metrics/types (issue reports) *)

Inductive IssueSeverity : Type := low | medium | high | critical.

Inductive IssueCategory : Type :=
| bug | feature_request | documentation | performance | security | other.

Record IssueReport : Type := mkIssueReport {
  id : string;
  title : string;
  description : string;
  severity : IssueSeverity;
  category : IssueCategory;
  steps_to_reproduce : option string;
  expected_behavior : option string;
  actual_behavior : option string;
  environment : option string;
  created_at : string
}.

Record IssuesData : Type := mkIssuesData {
  server_name : string;
  data_created_at : string;
  updated_at : string;
  total_issues : Z;
  issues : list IssueReport
}.

Definition createEmptyIssuesData (serverName now : string) : IssuesData :=
  {| server_name := serverName;
     data_created_at := now;
     updated_at := now;
     total_issues := 0;
     issues := [] |}.

(** ** metrics/issues *)

Definition MAX_ISSUES : nat := 100.

(** The argument object of [report]. *)
Record ReportParams : Type := mkReportParams {
  p_title : string;
  p_description : string;
  p_severity : IssueSeverity;
  p_category : IssueCategory;
  p_steps_to_reproduce : option string;
  p_expected_behavior : option string;
  p_actual_behavior : option string;
  p_environment : option string
}.

(** What [report] reads from its environment: the base-36 rendering of
    [Date.now()], the six characters taken from [Math.random()], and the
    two readings of [new Date().toISOString()]. *)
Record ReportEnv : Type := mkReportEnv {
  now_base36 : string;
  random_suffix : string;
  created_iso : string;
  updated_iso : string
}.

Record IssueCollector : Type := mkIssueCollector {
  data : IssuesData;
  serverName : string;
  writeQueue : nat;
  initialized : bool
}.

(** [new IssueCollector(serverName)] *)
Definition new_IssueCollector (name now : string) : IssueCollector :=
  {| data := createEmptyIssuesData name now;
     serverName := name;
     writeQueue := 0;
     initialized := false |}.

(** [initialize], given the document [loadIssues] returns. *)
Definition initialize (loaded : IssuesData) (c : IssueCollector) : IssueCollector :=
  {| data := loaded;
     serverName := serverName c;
     writeQueue := writeQueue c;
     initialized := true |}.

(** [generateIssueId] *)
Definition generateIssueId (env : ReportEnv) : string :=
  now_base36 env ++ "-" ++ random_suffix env.

(** The record built by [report] from its arguments. *)
Definition new_issue (env : ReportEnv) (params : ReportParams) : IssueReport :=
  {| id := generateIssueId env;
     title := p_title params;
     description := p_description params;
     severity := p_severity params;
     category := p_category params;
     steps_to_reproduce := p_steps_to_reproduce params;
     expected_behavior := p_expected_behavior params;
     actual_behavior := p_actual_behavior params;
     environment := p_environment params;
     created_at := created_iso env |}.

(** [report]: the collector after the call, and what the call returns or
    throws. *)
Definition report (env : ReportEnv) (params : ReportParams) (c : IssueCollector)
  : IssueCollector * Outcome IssueReport :=
  if negb (initialized c) then
    (c, Thrown "IssueCollector not initialized")
  else
    let issue := new_issue env params in
    let d := data c in
    let unshifted := issue :: issues d in
    let kept :=
      if (MAX_ISSUES <? length unshifted)%nat then take MAX_ISSUES unshifted
      else unshifted in
    ({| data :=
          {| server_name := server_name d;
             data_created_at := data_created_at d;
             updated_at := updated_iso env;
             total_issues := total_issues d + 1;
             issues := kept |};
        serverName := serverName c;
        writeQueue := S (writeQueue c);
        initialized := initialized c |},
     Returned issue).

(** A sequence of [report] calls, the collector being the state. *)
Definition reports (calls : list (ReportEnv * ReportParams)) (c : IssueCollector)
  : IssueCollector :=
  fold_left (λ c call, fst (report (fst call) (snd call) c)) calls c.

(** ** Examples *)




(** ** metrics/storage (issues) and the collector's use of it *)

(** The issues file: absent, present but rejected by [loadIssues], or
    holding a document. *)
Inductive IssuesFile : Type :=
| Missing
| Corrupt
| Stored (d : IssuesData).

(** [loadIssues] *)
Definition loadIssues (file : IssuesFile) (serverName now : string)
  : IssuesData :=
  match file with
  | Stored d => d
  | Missing | Corrupt => createEmptyIssuesData serverName now
  end.

(** [initializeIssuesFile] *)
Definition initializeIssuesFile (file : IssuesFile) (serverName now : string)
  : IssuesFile :=
  match file with
  | Missing => Stored (createEmptyIssuesData serverName now)
  | _ => file
  end.

(** [IssueCollector.initialize] on a given file, the file system not
    throwing: the collector and the file afterwards. *)
Definition initialize_from (now : string) (file : IssuesFile)
    (c : IssueCollector) : IssueCollector * IssuesFile :=
  let file' := initializeIssuesFile file (serverName c) now in
  (initialize (loadIssues file' (serverName c) now) c, file').

End Issues.

Module Styles.

(** ** config/styles *)

Record StyleConfig : Type := mkStyleConfig {
  styles : gmap string (list string);
  folders : gmap string string
}.

Inductive Scope : Type := global | project.

(** What reading a config file gives: text that [JSON.parse] rejects or
    parses to [null], on which [parsed.styles] throws; or a value whose
    [styles] and [folders] may be absent or falsy. *)
Inductive ConfigFile : Type :=
| Unparsable
| Parsed (file_styles : option (gmap string (list string)))
         (file_folders : option (gmap string string)).

(** [s.replace(/\/+$/, "")]: drop the run of slashes that ends the string. *)
Fixpoint strip_trailing_slashes (s : string) : string :=
  match s with
  | EmptyString => EmptyString
  | String c rest =>
      let rest' := strip_trailing_slashes rest in
      if decide (c = "/"%char) then
        match rest' with
        | EmptyString => EmptyString
        | _ => String c rest'
        end
      else String c rest'
  end.

(** [s.split("/")] *)
Fixpoint split_slash (s : string) : list string :=
  match s with
  | EmptyString => [EmptyString]
  | String c rest =>
      if decide (c = "/"%char) then EmptyString :: split_slash rest
      else
        match split_slash rest with
        | first :: others => String c first :: others
        | [] => [String c EmptyString]
        end
  end.

(** [parts.join("/")] *)
Fixpoint join_slash (parts : list string) : string :=
  match parts with
  | [] => EmptyString
  | [part] => part
  | part :: others => part ++ "/" ++ join_slash others
  end.

(** *** [path.join] *)

(** What [normalizeString] does with one segment of the path, [kept]
    holding the segments kept so far, the last one first: an empty segment
    and [.] are skipped, [..] removes the segment before it when there is
    one that is not itself [..], and otherwise stays only in a relative
    path. *)
Definition normalize_segment (allowAboveRoot : bool) (kept : list string)
    (segment : string) : list string :=
  if decide (segment = "" ∨ segment = ".") then kept
  else if decide (segment = "..") then
    match kept with
    | previous :: before =>
        if decide (previous = "..") then
          (if allowAboveRoot then ".." :: kept else kept)
        else before
    | [] => if allowAboveRoot then [".."] else []
    end
  else segment :: kept.

Definition starts_with_slash (s : string) : bool :=
  match s with
  | String c _ => bool_decide (c = "/"%char)
  | EmptyString => false
  end.

Fixpoint ends_with_slash (s : string) : bool :=
  match s with
  | EmptyString => false
  | String c EmptyString => bool_decide (c = "/"%char)
  | String _ rest => ends_with_slash rest
  end.

(** [path.normalize] *)
Definition path_normalize (path : string) : string :=
  if decide (path = "") then "."
  else
    let isAbsolute := starts_with_slash path in
    let trailingSeparator := ends_with_slash path in
    let kept :=
      fold_left (normalize_segment (negb isAbsolute)) (split_slash path) [] in
    match rev kept with
    | [] => if isAbsolute then "/" else if trailingSeparator then "./" else "."
    | segments =>
        (if isAbsolute then "/" else "")
        ++ join_slash segments
        ++ (if trailingSeparator then "/" else "")
    end.

(** [path.join] *)
Definition path_join (parts : list string) : string :=
  match filter (λ part, part ≠ "") parts with
  | [] => "."
  | present => path_normalize (join_slash present)
  end.

(** *** The module state *)

(** The module state, the files it reads and writes and the built-in
    objects of the process.  [DEFAULT_CONFIG] holds the own properties of
    the two dictionaries of the module constant of that name: the constant
    is never reassigned, but its dictionaries are ordinary mutable objects.
    [default_styles_prototype] is the array, if any, that an assignment to
    ["__proto__"] has made the prototype of the first of them.  Project
    config files are indexed by their path. *)
Record World : Type := mkWorld {
  DEFAULT_CONFIG : StyleConfig;
  default_styles_prototype : option (list string);
  projectRoot : string;
  global_file : option ConfigFile;
  project_files : gmap string ConfigFile;
  engine : Engine
}.

(** The state of a fresh process on a machine without config files. *)
Definition fresh_world (cwd : string) : World :=
  {| DEFAULT_CONFIG := {| styles := ∅; folders := ∅ |};
     default_styles_prototype := None;
     projectRoot := cwd;
     global_file := None;
     project_files := ∅;
     engine := pristine |}.

(** [setProjectRoot] *)
Definition setProjectRoot (path : string) (w : World) : World :=
  {| DEFAULT_CONFIG := DEFAULT_CONFIG w;
     default_styles_prototype := default_styles_prototype w;
     projectRoot := path;
     global_file := global_file w;
     project_files := project_files w;
     engine := engine w |}.

(** [getProjectConfigPath] *)
Definition getProjectConfigPath (w : World) : string :=
  path_join [projectRoot w; ".mcpconfig/lottie-styles.json"].

(** A config object as [readConfigFile] returns it.  On the success path
    its two dictionaries are those just parsed, or new empty ones, owned by
    nobody else.  On the failure path the object is [{ ...DEFAULT_CONFIG }],
    a new object whose [styles] and [folders] are the very dictionaries of
    [DEFAULT_CONFIG]. *)
Inductive ConfigObject : Type :=
| Own (c : StyleConfig)
| SharesDefault.

(** [readConfigFile], applied to the file found at the path (if any). *)
Definition readConfigFile (f : option ConfigFile) : ConfigObject :=
  match f with
  | Some (Parsed s f) =>
      Own {| styles := default ∅ s; folders := default ∅ f |}
  | Some Unparsable | None => SharesDefault
  end.

(** The own properties of the dictionaries a config object shows. *)
Definition contents (w : World) (o : ConfigObject) : StyleConfig :=
  match o with
  | Own c => c
  | SharesDefault => DEFAULT_CONFIG w
  end.

(** The array, if any, between the [styles] dictionary of a config object
    and [Object.prototype] on its prototype chain. *)
Definition styles_prototype (w : World) (o : ConfigObject)
  : option (list string) :=
  match o with
  | Own _ => None
  | SharesDefault => default_styles_prototype w
  end.

(** In-place mutation of the dictionaries of a config object, [c] being
    their new own properties. *)
Definition mutate (o : ConfigObject) (c : StyleConfig) (w : World) : World :=
  match o with
  | Own _ => w
  | SharesDefault =>
      {| DEFAULT_CONFIG := c;
         default_styles_prototype := default_styles_prototype w;
         projectRoot := projectRoot w;
         global_file := global_file w;
         project_files := project_files w;
         engine := engine w |}
  end.

(** The array [a] becomes the prototype of the [styles] dictionary of a
    config object. *)
Definition set_styles_prototype (o : ConfigObject) (a : list string)
    (w : World) : World :=
  match o with
  | Own _ => w
  | SharesDefault =>
      {| DEFAULT_CONFIG := DEFAULT_CONFIG w;
         default_styles_prototype := Some a;
         projectRoot := projectRoot w;
         global_file := global_file w;
         project_files := project_files w;
         engine := engine w |}
  end.

(** The file of a scope: [GLOBAL_CONFIG_PATH], or [getProjectConfigPath()]. *)
Definition scope_file (scope : Scope) (w : World) : option ConfigFile :=
  match scope with
  | global => global_file w
  | project => project_files w !! getProjectConfigPath w
  end.

(** [readGlobalConfig] / [readProjectConfig] *)
Definition readScope (scope : Scope) (w : World) : ConfigObject :=
  readConfigFile (scope_file scope w).

(** [writeGlobalConfig] / [writeProjectConfig], the write succeeding: the
    file then holds [JSON.stringify(config)], the own properties of the two
    dictionaries. *)
Definition writeScope (scope : Scope) (c : StyleConfig) (w : World) : World :=
  let content := Parsed (Some (styles c)) (Some (folders c)) in
  match scope with
  | global =>
      {| DEFAULT_CONFIG := DEFAULT_CONFIG w;
         default_styles_prototype := default_styles_prototype w;
         projectRoot := projectRoot w;
         global_file := Some content;
         project_files := project_files w;
         engine := engine w |}
  | project =>
      {| DEFAULT_CONFIG := DEFAULT_CONFIG w;
         default_styles_prototype := default_styles_prototype w;
         projectRoot := projectRoot w;
         global_file := global_file w;
         project_files := <[getProjectConfigPath w := content]> (project_files w);
         engine := engine w |}
  end.

(** The config a scope presents to a reader. *)
Definition scope_config (scope : Scope) (w : World) : StyleConfig :=
  contents w (readScope scope w).

(** [{ ...below, ...above }]: the own properties of [below], then those of
    [above], defined on a new object. *)
Definition spread {V : Type} (m : gmap string V) (acc : gmap string V)
  : gmap string V :=
  map_fold (λ k v acc, <[k := v]> acc) acc m.

(** [for (const k of Object.keys(m)) acc[k] = mark]: the provenance
    marking, an ordinary assignment for each key. *)
Definition mark_all {V : Type} (mark : Scope) (m : gmap string V)
    (acc : gmap string Scope) : gmap string Scope :=
  map_fold (λ k _ acc, js_assign k mark acc) acc m.

Record Sources : Type := mkSources {
  src_styles : gmap string Scope;
  src_folders : gmap string Scope
}.

Record MergedConfig : Type := mkMergedConfig {
  m_styles : gmap string (list string);
  m_folders : gmap string string;
  _sources : Sources
}.

(** The body of [getMergedConfig] after its two reads. *)
Definition merge (g p : StyleConfig) : MergedConfig :=
  let sources_styles :=
    mark_all project (styles p) (mark_all global (styles g) ∅) in
  let sources_folders :=
    mark_all project (folders p) (mark_all global (folders g) ∅) in
  {| m_styles := spread (styles p) (spread (styles g) ∅);
     m_folders := spread (folders p) (spread (folders g) ∅);
     _sources := {| src_styles := sources_styles; src_folders := sources_folders |} |}.

(** [getMergedConfig] *)
Definition getMergedConfig (w : World) : MergedConfig :=
  merge (scope_config global w) (scope_config project w).

(** [saveStyle].  The assignment [config.styles[name] = tags] defines or
    updates an own property, except for the name ["__proto__"] on a
    dictionary without an own property of that name: the assignment then
    runs the setter inherited from [Object.prototype], which makes the
    array [tags] the prototype of the dictionary and stores no key. *)
Definition saveStyle (name : string) (tags : list string) (scope : Scope)
    (w : World) : World :=
  let config := readScope scope w in
  let c := contents w config in
  if decide (name = "__proto__" ∧ styles c !! name = None) then
    writeScope scope c (set_styles_prototype config tags w)
  else
    let c' := {| styles := <[name := tags]> (styles c); folders := folders c |} in
    writeScope scope c' (mutate config c' w).

(** The loop of [deleteStyle] over [Object.entries(config.folders)]. *)
Definition remove_associations (name : string) (fs : gmap string string)
  : gmap string string :=
  map_fold (λ folder styleName acc,
              if decide (styleName = name) then delete folder acc else acc)
           fs fs.

(** What an object inherits from an array [a] that is its prototype: the
    indices of [a], [length], and the properties of [Array.prototype]. *)
Definition array_has (e : Engine) (a : list string) (key : string) : bool :=
  bool_decide (key ∈ (pretty <$> seq 0 (length a)))
  || bool_decide (key = "length")
  || bool_decide (key ∈ Array_prototype e).

(** [name in config.styles] *)
Definition styles_in (w : World) (config : ConfigObject) (name : string)
  : bool :=
  js_in (engine w) (styles (contents w config)) name
  || match styles_prototype w config with
     | Some a => array_has (engine w) a name
     | None => false
     end.

(** [deleteStyle] *)
Definition deleteStyle (name : string) (scope : Scope) (w : World)
  : World * bool :=
  let config := readScope scope w in
  let c := contents w config in
  if negb (styles_in w config name) then (w, false)
  else
    let c' := {| styles := delete name (styles c);
                 folders := remove_associations name (folders c) |} in
    (writeScope scope c' (mutate config c' w), true).

(** [setFolderStyle] *)
Definition setFolderStyle (folderPath styleName : string) (scope : Scope)
    (w : World) : World :=
  let config := readScope scope w in
  let c := contents w config in
  let normalizedPath := strip_trailing_slashes folderPath in
  let c' := {| styles := styles c;
               folders := js_assign normalizedPath styleName (folders c) |} in
  writeScope scope c' (mutate config c' w).

(** [removeFolderStyle] *)
Definition removeFolderStyle (folderPath : string) (scope : Scope) (w : World)
  : World * bool :=
  let config := readScope scope w in
  let c := contents w config in
  let normalizedPath := strip_trailing_slashes folderPath in
  if negb (js_in (engine w) (folders c) normalizedPath) then (w, false)
  else
    let c' := {| styles := styles c;
                 folders := delete normalizedPath (folders c) |} in
    (writeScope scope c' (mutate config c' w), true).

(** The object [getStyleForFolder] returns: [style] is what
    [config.folders[key]] evaluated to and [tags] what
    [config.styles[styleName]] evaluated to. *)
Record Resolved : Type := mkResolved {
  style : Lookup string;
  tags : Lookup (list string);
  matchedPath : string
}.

(** The truthiness of what [config.styles[styleName]] evaluates to; an
    array is truthy. *)
Definition tags_truthy (t : Lookup (list string)) : bool :=
  match t with
  | Own_value _ => true
  | From_prototype i => truthy i
  end.

(** [config.styles[styleName]] with its truthiness test. *)
Definition style_tags (e : Engine) (config : MergedConfig) (styleName : string)
  : option (Lookup (list string)) :=
  match js_get e (m_styles config) styleName with
  | Some t => if tags_truthy t then Some t else None
  | None => None
  end.

(** The test made on one candidate key: [key in config.folders], then
    [config.styles[styleName]] being truthy. *)
Definition lookup_style (e : Engine) (config : MergedConfig) (key : string)
  : option Resolved :=
  match js_get e (m_folders config) key with
  | Some styleName =>
      match style_tags e config (property_key styleName) with
      | Some t => Some {| style := styleName; tags := t; matchedPath := key |}
      | None => None
      end
  | None => None
  end.

(** [for (let i = ...; i > 0; i--)]: the iterations from index [i] down. *)
Fixpoint walk_parents (e : Engine) (config : MergedConfig)
    (parts : list string) (i : nat) : option Resolved :=
  match i with
  | O => None
  | S j =>
      let parentPath := join_slash (take i parts) in
      match lookup_style e config parentPath with
      | Some r => Some r
      | None => walk_parents e config parts j
      end
  end.

(** The body of [getStyleForFolder] after [getMergedConfig]. *)
Definition resolve (e : Engine) (config : MergedConfig) (folderPath : string)
  : option Resolved :=
  let normalizedPath := strip_trailing_slashes folderPath in
  match lookup_style e config normalizedPath with
  | Some r => Some r
  | None =>
      let parts := split_slash normalizedPath in
      walk_parents e config parts (length parts - 1)
  end.

(** [getStyleForFolder] *)
Definition getStyleForFolder (folderPath : string) (w : World)
  : option Resolved :=
  resolve (engine w) (getMergedConfig w) folderPath.

(** [getStyleTags]: [config.styles[styleName] || null] *)
Definition getStyleTags (styleName : string) (w : World)
  : option (Lookup (list string)) :=
  style_tags (engine w) (getMergedConfig w) styleName.

(** ** Notions used to state the properties of the store *)

(** [p] is an ancestor directory of [n]: [n] is [p], a slash, and more. *)
Definition is_ancestor (p n : string) : Prop := ∃ rest, n = p ++ "/" ++ rest.

(** The key tried at iteration [i] of the loop over the parents of [n]. *)
Definition candidate (n : string) (i : nat) : string :=
  join_slash (take i (split_slash n)).

(** An overlay of two dictionaries: the second wins where both are defined. *)
Definition overlay {V : Type} (below above : gmap string V) (k : string)
  : option V :=
  match above !! k with
  | Some v => Some v
  | None => below !! k
  end.

(** The scope a key of the overlay comes from. *)
Definition provenance {V : Type} (g p : gmap string V) (k : string)
  : option Scope :=
  match p !! k with
  | Some _ => Some project
  | None => match g !! k with
            | Some _ => Some global
            | None => None
            end
  end.

(** ** Examples *)

(** The scope that is not [scope]. *)
Definition other_scope (scope : Scope) : Scope :=
  match scope with
  | global => project
  | project => global
  end.

(** A machine whose two config files were written by hand and both define
    a style named ["__proto__"], which [JSON.parse] turns into an own
    property. *)
Definition world_with_proto_styles : World :=
  {| DEFAULT_CONFIG := {| styles := ∅; folders := ∅ |};
     default_styles_prototype := None;
     projectRoot := "/proj";
     global_file := Some (Parsed (Some {["__proto__" := ["tag1"]]}) (Some ∅));
     project_files :=
       {["/proj/.mcpconfig/lottie-styles.json"
         := Parsed (Some {["__proto__" := ["tag2"]]}) (Some ∅)]};
     engine := pristine |}.

End Styles.

Module Wrapper.
Import Metrics.

(** ** tools/wrapper: [createMetricsWrapper] *)








End Wrapper.

(** * Properties *)

(** ** Dictionaries *)

(** A plain name is inherited by no object. *)
Lemma inherited_plain (e : Engine) (name : string) :
  plain_name name → inherited e name = None.
Proof.
  intros [Hobject Hkeys]. unfold inherited.
  rewrite bool_decide_eq_false_2 by done.
  destruct (statistics e !! "__proto__") as [written|]; [|done].
  unfold written_property, statistic_keys in *.
  rewrite !not_elem_of_cons in Hkeys.
  destruct Hkeys as (? & ? & ? & ? & ? & ? & _).
  rewrite bool_decide_eq_false_2
    by (rewrite !not_elem_of_cons; repeat split; try done; apply not_elem_of_nil).
  by rewrite !decide_False by done.
Qed.

Lemma js_get_plain {V : Type} (e : Engine) (dict : gmap string V) (name : string) :
  plain_name name → js_get e dict name = Own_value <$> dict !! name.
Proof.
  intros Hname. unfold js_get. rewrite inherited_plain by done.
  by destruct (dict !! name).
Qed.

Lemma lookup_js_assign_ne {V : Type} (key : string) (v : V)
    (dict : gmap string V) (k : string) :
  k ≠ key → js_assign key v dict !! k = dict !! k.
Proof.
  intros Hk. unfold js_assign. case_decide; [done|].
  by rewrite lookup_insert_ne.
Qed.

Lemma lookup_js_assign_eq {V : Type} (key : string) (v : V)
    (dict : gmap string V) :
  key ≠ "__proto__" → js_assign key v dict !! key = Some v.
Proof.
  intros Hk. unfold js_assign. rewrite decide_False by (by intros [? _]).
  by rewrite lookup_insert_eq.
Qed.

Lemma lookup_js_assign_proto {V : Type} (v : V) (dict : gmap string V) :
  dict !! "__proto__" = None → js_assign "__proto__" v dict = dict.
Proof. intros Hk. unfold js_assign. by rewrite decide_True. Qed.

(** ** Removing an association *)

Lemma js_in_js_assign {V : Type} (e : Engine) (key : string) (v : V)
    (dict : gmap string V) :
  js_in e (js_assign key v dict) key = true.
Proof.
  unfold js_in, js_assign, js_get. apply bool_decide_eq_true_2.
  case_decide as Hsetter.
  - destruct Hsetter as [-> ->]. by eexists.
  - rewrite lookup_insert_eq. by eexists.
Qed.

Lemma delete_js_assign {V : Type} (key : string) (v : V) (dict : gmap string V) :
  dict !! key = None → delete key (js_assign key v dict) = dict.
Proof.
  intros Hnone. unfold js_assign. case_decide.
  - by apply delete_id.
  - by rewrite delete_insert_eq, delete_id.
Qed.

Lemma js_in_own {V : Type} (e : Engine) (dict : gmap string V) (key : string) :
  is_Some (dict !! key) → js_in e dict key = true.
Proof.
  intros [v Hv]. unfold js_in, js_get. rewrite Hv.
  apply bool_decide_eq_true_2. by eexists.
Qed.

Lemma js_in_plain {V : Type} (e : Engine) (dict : gmap string V) (key : string) :
  plain_name key → js_in e dict key = bool_decide (is_Some (dict !! key)).
Proof.
  intros Hkey. unfold js_in. rewrite js_get_plain by done.
  apply bool_decide_ext. apply fmap_is_Some.
Qed.

Module MetricsProps.
Import Metrics.

Section WithSerializer.

Variable JSON_stringify_length : MetricsData → nat.

Local Notation "'trim'" := (trimInvocationsForSize JSON_stringify_length).
Local Notation "'cond'" := (trim_cond JSON_stringify_length).

(** ** The trimming loop *)

Lemma removeCount_pos (len : nat) : (1 ≤ removeCount len)%nat.
Proof. unfold removeCount. lia. Qed.

(** [removeCount] is [max(1, floor(0.25 × len))]: its second argument is the
    integer part of a quarter of [len]. *)
Lemma removeCount_quarter (len : nat) :
  ∃ q : nat, removeCount len = Nat.max 1 q ∧ (4 * q ≤ len < 4 * q + 4)%nat.
Proof.
  exists (len / 4)%nat. split; [done|].
  pose proof (Nat.div_mod_eq len 4).
  pose proof (Nat.mod_upper_bound len 4 ltac:(lia)). lia.
Qed.

Lemma trim_cond_true data maxSizeBytes :
  cond data maxSizeBytes = true
  ↔ maxSizeBytes < Z.of_nat (JSON_stringify_length data)
    ∧ invocations data ≠ [].
Proof.
  unfold trim_cond. rewrite andb_true_iff, Z.ltb_lt, Nat.ltb_lt.
  destruct (invocations data); simpl; split; intros [? ?]; split;
    try done; lia.
Qed.

Lemma trim_cond_false data maxSizeBytes :
  cond data maxSizeBytes = false
  ↔ Z.of_nat (JSON_stringify_length data) ≤ maxSizeBytes
    ∨ invocations data = [].
Proof.
  unfold trim_cond. rewrite andb_false_iff, Z.ltb_ge, Nat.ltb_ge.
  destruct (invocations data); simpl; split; intros [?|?];
    try done; auto; try lia.
Qed.

Lemma trim_body_shrinks data :
  invocations data ≠ [] →
  (length (invocations (trim_body data)) < length (invocations data))%nat.
Proof.
  intros Hne. simpl. rewrite length_drop.
  pose proof (removeCount_pos (length (invocations data))).
  destruct (invocations data); [done|simpl in *; lia].
Qed.

(** The body removes a prefix, the oldest entries, of the stated length. *)
Lemma trim_body_drops_oldest data :
  invocations data ≠ [] →
  ∃ oldest,
    invocations data = (oldest ++ invocations (trim_body data))%list
    ∧ length oldest = removeCount (length (invocations data)).
Proof.
  intros Hne.
  exists (take (removeCount (length (invocations data))) (invocations data)).
  split; [simpl; by rewrite take_drop|].
  rewrite length_take.
  assert (removeCount (length (invocations data)) ≤ length (invocations data))%nat;
    [|lia].
  unfold removeCount.
  assert (length (invocations data) / 4 ≤ length (invocations data))%nat
    by (apply Nat.Div0.div_le_upper_bound; lia).
  destruct (invocations data); [done|simpl in *; lia].
Qed.

Lemma trim_loop_eq data maxSizeBytes :
  trim data maxSizeBytes
  = if cond data maxSizeBytes then trim (trim_body data) maxSizeBytes else data.
Proof.
  rewrite trimInvocationsForSize_equation_1.
  destruct (decide (cond data maxSizeBytes = true)) as [Hc|Hc]; simpl.
  - by rewrite Hc.
  - by destruct (cond data maxSizeBytes).
Qed.

(** Induction along the iterations of the loop. *)
Lemma trim_loop_ind (maxSizeBytes : Z) (P : MetricsData → Prop) :
  (∀ d, cond d maxSizeBytes = false → P d) →
  (∀ d, cond d maxSizeBytes = true → P (trim_body d) → P d) →
  ∀ d, P d.
Proof.
  intros Hexit Hiter d.
  remember (length (invocations d)) as n eqn:Hn.
  revert d Hn. induction n as [n IH] using lt_wf_ind. intros d ->.
  destruct (cond d maxSizeBytes) eqn:Hc; [|by apply Hexit].
  apply Hiter; [done|]. eapply IH; [|reflexivity].
  apply trim_body_shrinks. by apply trim_cond_true in Hc as [_ ?].
Qed.

Lemma trim_same_aggregates data maxSizeBytes :
  same_aggregates data (trim data maxSizeBytes).
Proof.
  induction data as [d Hc|d Hc IH] using (trim_loop_ind maxSizeBytes);
    rewrite trim_loop_eq, Hc; [done|].
  destruct IH as (?&?&?&?&?). done.
Qed.

Lemma trim_tool_stats data maxSizeBytes :
  tool_stats (trim data maxSizeBytes) = tool_stats data.
Proof. apply trim_same_aggregates. Qed.

Lemma trim_total_invocations data maxSizeBytes :
  total_invocations (trim data maxSizeBytes) = total_invocations data.
Proof. apply trim_same_aggregates. Qed.

(** On exit the loop test is false. *)
Lemma trim_exit data maxSizeBytes :
  cond (trim data maxSizeBytes) maxSizeBytes = false.
Proof.
  induction data as [d Hc|d Hc IH] using (trim_loop_ind maxSizeBytes);
    rewrite trim_loop_eq, Hc; done.
Qed.

(** What survives is a suffix of the sequence: only oldest entries go. *)
Lemma trim_suffix data maxSizeBytes :
  invocations (trim data maxSizeBytes) `suffix_of` invocations data.
Proof.
  induction data as [d Hc|d Hc IH] using (trim_loop_ind maxSizeBytes);
    rewrite trim_loop_eq, Hc; [done|].
  etrans; [exact IH|]. simpl. apply suffix_drop.
Qed.

(** The result is the body iterated [k] times, the test holding before each
    of the [k] iterations, and [k] is at most the initial length. *)
Lemma trim_iterations data maxSizeBytes :
  ∃ k : nat,
    (k ≤ length (invocations data))%nat
    ∧ trim data maxSizeBytes = Nat.iter k trim_body data
    ∧ ∀ j : nat, (j < k)%nat →
        cond (Nat.iter j trim_body data) maxSizeBytes = true.
Proof.
  induction data as [d Hc|d Hc IH] using (trim_loop_ind maxSizeBytes);
    rewrite trim_loop_eq, Hc.
  - exists 0%nat. split; [lia|]. split; [done|]. lia.
  - destruct IH as (k & Hk & Heq & Hj). exists (S k).
    apply trim_cond_true in Hc as Hc'. destruct Hc' as [_ Hne].
    pose proof (trim_body_shrinks d Hne).
    split; [lia|]. split.
    + by rewrite Heq, Nat.iter_succ_r.
    + intros [|j] Hlt; [done|].
      rewrite Nat.iter_succ_r. apply Hj. lia.
Qed.

(** C9.  [trimInvocationsForSize] terminates on every document and every
    maximum size, zero and negative ones included: the number of entries
    removed by an iteration is at least one, so an iteration on a non-empty
    sequence strictly shortens it, and the call performs a number [k] of
    iterations that is at most the initial length of the sequence, the loop
    test holding before each of them and failing after the last, where
    either the size is within the maximum or the sequence is empty. *)
Theorem trimInvocationsForSize_terminates (data : MetricsData) (maxSizeBytes : Z) :
  (∀ len : nat, (1 ≤ removeCount len)%nat)
  ∧ (∀ d, invocations d ≠ [] →
       (length (invocations (trim_body d)) < length (invocations d))%nat)
  ∧ ∃ k : nat,
      (k ≤ length (invocations data))%nat
      ∧ trim data maxSizeBytes = Nat.iter k trim_body data
      ∧ (∀ j : nat, (j < k)%nat →
           cond (Nat.iter j trim_body data) maxSizeBytes = true)
      ∧ cond (Nat.iter k trim_body data) maxSizeBytes = false
      ∧ (Z.of_nat (JSON_stringify_length (Nat.iter k trim_body data))
           ≤ maxSizeBytes
         ∨ invocations (Nat.iter k trim_body data) = []).
Proof.
  split; [apply removeCount_pos|]. split; [apply trim_body_shrinks|].
  destruct (trim_iterations data maxSizeBytes) as (k & Hk & Heq & Hj).
  exists k. repeat split; try done.
  - rewrite <- Heq. apply trim_exit.
  - apply trim_cond_false. rewrite <- Heq. apply trim_exit.
Qed.

(** C2.  The flush-time trim is the loop: while the serialized document
    exceeds the maximum and the sequence is non-empty, remove the oldest
    [max(1, floor(0.25 × count))] entries and measure again.  It returns
    the document untouched exactly when the test fails on entry, it ends on
    a document whose size does not exceed the maximum or whose sequence is
    empty, what it keeps is a suffix of the sequence, and [tool_stats],
    [total_invocations] and every field other than [invocations] are those
    of the input.  [persistToDisk] applies it to the collector's document
    with the configured maximum, whether or not the write then succeeds. *)
Theorem flush_trim_behaviour (data : MetricsData) (maxSizeBytes : Z)
    (c : MetricsCollector) (write_ok : bool) :
  trim data maxSizeBytes
    = (if cond data maxSizeBytes then trim (trim_body data) maxSizeBytes
       else data)
  ∧ (cond data maxSizeBytes = true
     ↔ maxSizeBytes < Z.of_nat (JSON_stringify_length data)
       ∧ invocations data ≠ [])
  ∧ (∀ d, invocations d ≠ [] →
       ∃ oldest,
         invocations d = (oldest ++ invocations (trim_body d))%list
         ∧ length oldest = removeCount (length (invocations d))
         ∧ same_aggregates d (trim_body d))
  ∧ (∀ len : nat, ∃ q : nat,
       removeCount len = Nat.max 1 q ∧ (4 * q ≤ len < 4 * q + 4)%nat)
  ∧ (trim data maxSizeBytes = data ↔ cond data maxSizeBytes = false)
  ∧ (Z.of_nat (JSON_stringify_length (trim data maxSizeBytes)) ≤ maxSizeBytes
     ∨ invocations (trim data maxSizeBytes) = [])
  ∧ invocations (trim data maxSizeBytes) `suffix_of` invocations data
  ∧ same_aggregates data (trim data maxSizeBytes)
  ∧ Metrics.data (persistToDisk JSON_stringify_length write_ok c)
    = trim (Metrics.data c) (Metrics.maxSizeBytes c)
  ∧ tool_stats (Metrics.data (persistToDisk JSON_stringify_length write_ok c))
    = tool_stats (Metrics.data c)
  ∧ total_invocations (Metrics.data (persistToDisk JSON_stringify_length write_ok c))
    = total_invocations (Metrics.data c).
Proof.
  split; [apply trim_loop_eq|]. split; [apply trim_cond_true|].
  split.
  { intros d Hne. destruct (trim_body_drops_oldest d Hne) as (o & ? & ?).
    exists o. by repeat split. }
  split; [apply removeCount_quarter|].
  split.
  { split.
    - intros Heq. destruct (cond data maxSizeBytes) eqn:Hc; [|done].
      exfalso. rewrite trim_loop_eq, Hc in Heq.
      apply trim_cond_true in Hc as [_ Hne].
      pose proof (trim_body_shrinks data Hne) as Hlt.
      pose proof (suffix_length _ _ (trim_suffix (trim_body data) maxSizeBytes)).
      rewrite Heq in *. lia.
    - intros Hc. by rewrite trim_loop_eq, Hc. }
  split; [apply trim_cond_false, trim_exit|].
  split; [apply trim_suffix|].
  split; [apply trim_same_aggregates|].
  split; [done|]. simpl.
  split; [apply trim_tool_stats|apply trim_total_invocations].
Qed.

(** ** Aggregated statistics *)

Local Notation "'run'" := (Metrics.run JSON_stringify_length).
Local Notation "'step'" := (Metrics.step JSON_stringify_length).

Lemma run_cons e events c : run (e :: events) c = run events (step c e).
Proof. reflexivity. Qed.

(** What [updateToolStats] can do: set the entry of the tool, leave the
    document alone, or throw. *)
Lemma updateToolStats_cases inv e d :
  (∃ st, updateToolStats inv e d = Returned (e, with_tool_stats (tool inv) st d)
         ∧ ((∃ existing, tool_stats d !! tool inv = Some existing
                         ∧ st = updated_stats (Some existing) inv)
            ∨ (tool_stats d !! tool inv = None
               ∧ st = updated_stats None inv)))
  ∨ (∃ e', updateToolStats inv e d = Returned (e', d)
           ∧ tool_stats d !! tool inv = None
           ∧ inherited e (tool inv) = Some (Builtin (tool inv)))
  ∨ (∃ message, updateToolStats inv e d = Thrown message
                ∧ tool_stats d !! tool inv = None).
Proof.
  unfold updateToolStats, js_get.
  destruct (tool_stats d !! tool inv) as [existing|] eqn:Hown; simpl.
  { left. eexists. split; [done|]. left. by eexists. }
  destruct (inherited e (tool inv)) as [[name| |s]|] eqn:Hin; simpl.
  - right. left. eexists. split; [done|]. split; [done|].
    unfold inherited in Hin. case_bool_decide; [by injection Hin as <-|].
    destruct (statistics e !! "__proto__"); [|done].
    unfold written_property in Hin.
    repeat (case_bool_decide || case_decide || case_match); done.
  - left. eexists. split; [done|]. by right.
  - destruct (decide (s = "")).
    + left. eexists. split; [done|]. by right.
    + right. right. by eexists.
  - left. eexists. split; [done|]. by right.
Qed.

Lemma updateToolStats_plain inv e d :
  plain_name (tool inv) →
  updateToolStats inv e d
  = Returned (e, with_tool_stats (tool inv)
                   (updated_stats (tool_stats d !! tool inv) inv) d).
Proof.
  intros Hname. unfold updateToolStats. rewrite js_get_plain by done.
  by destruct (tool_stats d !! tool inv).
Qed.

Lemma record_initialized now inv c :
  initialized (record now inv c) = initialized c.
Proof.
  unfold record. destruct (initialized c); simpl; [|done].
  by destruct (updateToolStats _ _ _) as [[e d]|].
Qed.

Lemma step_initialized c e : initialized (step c e) = initialized c.
Proof.
  destruct e as [now inv|ok]; simpl.
  - apply record_initialized.
  - by destruct (writeQueue c).
Qed.

(** The statistics dictionary after a call of [record]. *)
Lemma record_tool_stats_plain now inv c :
  initialized c = true →
  plain_name (tool inv) →
  tool_stats (data (record now inv c))
  = <[tool inv := updated_stats (tool_stats (data c) !! tool inv) inv]>
      (tool_stats (data c)).
Proof.
  intros Hinit Hname. unfold record. rewrite Hinit. simpl.
  by rewrite updateToolStats_plain.
Qed.



Lemma record_tool_stats_other now inv c name :
  tool inv ≠ name →
  tool_stats (data (record now inv c)) !! name = tool_stats (data c) !! name.
Proof.
  intros Hname. unfold record. destruct (initialized c); simpl; [|done].
  destruct (updateToolStats_cases inv (engine c) (pushed now inv (data c)))
    as [(st & -> & _)|[(e' & -> & _)|(message & -> & _)]]; simpl; try done.
  by rewrite lookup_insert_ne.
Qed.

Lemma flush_tool_stats ok c :
  tool_stats (data (step c (Flush ok))) = tool_stats (data c).
Proof. simpl. destruct (writeQueue c); [done|]. simpl. apply trim_tool_stats. Qed.

Lemma sum_durations_snoc l inv :
  l ≠ [] →
  sum_durations (l ++ [inv])%list
  = (sum_durations l + duration_ms inv)%float.
Proof.
  destruct l as [|first others]; [done|]. intros _.
  unfold sum_durations. simpl. by rewrite fold_left_app.
Qed.

Lemma average_of_snoc l inv :
  l ≠ [] →
  average_of (l ++ [inv])%list
  = Math_round (sum_durations (l ++ [inv])%list
                / Z_to_number (Z.of_nat (length (l ++ [inv])%list)))%float.
Proof. destruct l as [|a [|b l]]; done. Qed.

Lemma updated_stats_agree l entry inv :
  stats_agree l entry →
  stats_agree (l ++ [inv])%list (Some (updated_stats entry inv)).
Proof.
  destruct entry as [st|];
    cbn [stats_agree updated_stats call_count total_duration_ms avg_duration_ms
         success_count error_count last_used].
  - intros (Hne & Hcount & Hs & He & _ & Htotal & _).
    rewrite average_of_snoc, sum_durations_snoc by done.
    rewrite !filter_app, !length_app, !filter_cons, !filter_nil.
    split; [by destruct l|]. split; [simpl; lia|].
    split; [destruct (success inv); repeat case_decide; try done; simpl; lia|].
    split; [destruct (success inv); repeat case_decide; try done; simpl; lia|].
    split; [exists inv; by rewrite last_snoc|].
    split; [by rewrite Htotal|].
    rewrite Htotal. do 3 f_equal. simpl. lia.
  - intros ->. rewrite app_nil_l, !filter_cons, !filter_nil.
    split; [done|]. split; [done|].
    split; [destruct (success inv); repeat case_decide; done|].
    split; [destruct (success inv); repeat case_decide; done|].
    split; [by exists inv|]. done.
Qed.

Lemma run_stats_agree name events : ∀ c l,
  initialized c = true →
  plain_name name →
  stats_agree l (tool_stats (data c) !! name) →
  stats_agree (l ++ recorded name events)%list
              (tool_stats (data (run events c)) !! name).
Proof.
  induction events as [|e events IH]; intros c l Hinit Hname Hagree.
  - simpl. by rewrite app_nil_r.
  - rewrite run_cons. destruct e as [now inv|ok]; simpl recorded.
    + destruct (decide (tool inv = name)) as [<-|Hne].
      * rewrite (cons_middle inv), app_assoc. apply IH; [|done|].
        { by rewrite step_initialized. }
        simpl. rewrite record_tool_stats_plain, lookup_insert_eq by done.
        by apply updated_stats_agree.
      * apply IH; [by rewrite step_initialized|done|].
        simpl. by rewrite record_tool_stats_other.
    + apply IH; [by rewrite step_initialized|done|].
      by rewrite flush_tool_stats.
Qed.

End WithSerializer.

(** *** Instances on the sample collector *)

Lemma trimInvocationsForSize_terminates_witness :
  ∃ k : nat,
    (k ≤ 4)%nat
    ∧ trimInvocationsForSize sample_length
        (data (fold_left (Metrics.step sample_length)
                 [ Record_ "t1" (sample_invocation "search" 100 true);
                   Record_ "t2" (sample_invocation "search" 200 false);
                   Record_ "t3" (sample_invocation "echo" 7 true);
                   Record_ "t4" (sample_invocation "search" 300 true) ]
                 sample_collector)) 0
      = Nat.iter k trim_body
          (data (fold_left (Metrics.step sample_length)
                   [ Record_ "t1" (sample_invocation "search" 100 true);
                     Record_ "t2" (sample_invocation "search" 200 false);
                     Record_ "t3" (sample_invocation "echo" 7 true);
                     Record_ "t4" (sample_invocation "search" 300 true) ]
                   sample_collector)).
Proof.
  destruct (trimInvocationsForSize_terminates sample_length
              (data (fold_left (Metrics.step sample_length)
                       [ Record_ "t1" (sample_invocation "search" 100 true);
                         Record_ "t2" (sample_invocation "search" 200 false);
                         Record_ "t3" (sample_invocation "echo" 7 true);
                         Record_ "t4" (sample_invocation "search" 300 true) ]
                       sample_collector)) 0)
    as (_ & _ & k & Hk & Heq & _).
  exists k. split; [exact Hk|exact Heq].
Defined.

Lemma flush_trim_behaviour_witness :
  let c := Metrics.run sample_length sample_events sample_collector in
  length (invocations (data c)) = 2%nat
  ∧ total_invocations (data c) = 4
  ∧ same_aggregates (data c)
      (trimInvocationsForSize sample_length (data c) 120).
Proof.
  cbv zeta. split; [reflexivity|]. split; [reflexivity|].
  apply (flush_trim_behaviour sample_length
           (data (Metrics.run sample_length sample_events sample_collector))
           120 sample_collector true).
Defined.

(** *** The statistics at particular inputs *)

Lemma float_1_5_is_not_2 : 1.5%float ≠ 2%float.
Proof.
  intros Heq. apply (f_equal FloatOps.Prim2SF) in Heq.
  vm_compute in Heq. discriminate Heq.
Qed.

(** C1 (what the code does).  Record, on an initialized collector with an
    empty ledger, one invocation of the tool "search" that lasted 1.5 ms.
    The entry of "search" has [call_count] 1 and [total_duration_ms] 1.5,
    and its [avg_duration_ms] is 1.5, the duration as it came, while
    [Math.round] of total / count is 2: the branch of [updateToolStats]
    that creates an entry does not round.  A second invocation of 1.5 ms
    goes through the other branch, which rounds: the average 3 / 2 is
    stored as 2.  And record one invocation of a tool named "constructor":
    [total_invocations] is 1, but [tool_stats] has no entry for the tool,
    the statistics having been written on the built-in of that name that
    the lookup found on the prototype chain. *)
Theorem tool_stats_after_fractional_or_inherited :
  (let c := record "t1" (fractional_invocation "search" 1.5) sample_collector in
   ∃ st,
     tool_stats (data c) !! "search" = Some st
     ∧ call_count st = 1
     ∧ total_duration_ms st = 1.5%float
     ∧ avg_duration_ms st = 1.5%float
     ∧ Math_round (total_duration_ms st / Z_to_number (call_count st))%float
       = 2%float
     ∧ avg_duration_ms st
       ≠ Math_round (total_duration_ms st / Z_to_number (call_count st))%float)
  ∧ (let c := Metrics.run sample_length
                [ Record_ "t1" (fractional_invocation "search" 1.5);
                  Record_ "t2" (fractional_invocation "search" 1.5) ]
                sample_collector in
     ∃ st,
       tool_stats (data c) !! "search" = Some st
       ∧ call_count st = 2
       ∧ total_duration_ms st = 3%float
       ∧ avg_duration_ms st = 2%float)
  ∧ (let c := record "t1" (sample_invocation "constructor" 100 true)
                sample_collector in
     total_invocations (data c) = 1
     ∧ length (invocations (data c)) = 1%nat
     ∧ tool_stats (data c) = ∅
     ∧ ∃ written,
         statistics (engine c) !! "constructor" = Some written
         ∧ written_property written "call_count" = Some NaN
         ∧ written_property written "total_duration_ms" = Some NaN
         ∧ written_property written "avg_duration_ms" = Some NaN).
Proof.
  split; [|split].
  - eexists. split; [vm_compute; reflexivity|]. cbn [call_count total_duration_ms avg_duration_ms].
    repeat split; try reflexivity. apply float_1_5_is_not_2.
  - eexists. split; [vm_compute; reflexivity|]. repeat split; reflexivity.
  - do 3 (split; [reflexivity|]). eexists. split; [reflexivity|].
    repeat split; reflexivity.
Qed.

(** C6 (what the code does).  After the update made for the first
    invocation of a tool, here one that lasted 1.5 ms, the entry touched
    has [call_count = success_count + error_count], but its
    [avg_duration_ms], 1.5, is not [Math.round(total_duration_ms /
    call_count)], which is 2.  After the update made for an invocation of a
    tool named "toString", no entry of [tool_stats] has been touched at
    all: the object updated is the built-in function of that name, whose
    [call_count], [total_duration_ms] and [avg_duration_ms] are NaN from
    then on, and whose [error_count] does not exist after a success. *)
Theorem first_update_breaks_the_invariant :
  (∃ d st,
     updateToolStats (fractional_invocation "search" 1.5) pristine
       (createEmptyMetricsData "srv" "t0") = Returned (pristine, d)
     ∧ tool_stats d !! "search" = Some st
     ∧ call_count st = success_count st + error_count st
     ∧ avg_duration_ms st = 1.5%float
     ∧ Math_round (total_duration_ms st / Z_to_number (call_count st))%float
       = 2%float
     ∧ avg_duration_ms st
       ≠ Math_round (total_duration_ms st / Z_to_number (call_count st))%float)
  ∧ updateToolStats (sample_invocation "toString" 100 true) pristine
      (createEmptyMetricsData "srv" "t0")
    = Returned
        ({| Array_prototype := Array_prototype_names;
            statistics :=
              {["toString" := {| e_last_used := "2024-01-01T00:00:00.000Z";
                                 e_success_count := true;
                                 e_error_count := false |}]} |},
         createEmptyMetricsData "srv" "t0")
  ∧ tool_stats (createEmptyMetricsData "srv" "t0") !! "toString" = None
  ∧ (let written := {| e_last_used := "2024-01-01T00:00:00.000Z";
                       e_success_count := true;
                       e_error_count := false |} in
     written_property written "call_count" = Some NaN
     ∧ written_property written "success_count" = Some NaN
     ∧ written_property written "error_count" = None
     ∧ written_property written "avg_duration_ms" = Some NaN).
Proof.
  split; [|split; [|split]].
  - eexists _, _. split; [vm_compute; reflexivity|].
    split; [vm_compute; reflexivity|].
    cbn [call_count total_duration_ms avg_duration_ms success_count error_count].
    repeat split; try reflexivity. apply float_1_5_is_not_2.
  - reflexivity.
  - reflexivity.
  - repeat split; reflexivity.
Qed.

End MetricsProps.

Module IssuesProps.
Import Issues.

Lemma report_initialized env params c :
  initialized (fst (report env params c)) = initialized c.
Proof. unfold report. by destruct (initialized c) eqn:E. Qed.

Lemma report_issues env params c :
  initialized c = true →
  issues (data (fst (report env params c)))
  = take MAX_ISSUES (new_issue env params :: issues (data c)).
Proof.
  intros Hinit. unfold report. rewrite Hinit. cbn [negb fst data issues].
  destruct (MAX_ISSUES <? _)%nat eqn:Hlen; [done|].
  apply Nat.ltb_ge in Hlen. by rewrite take_ge.
Qed.

Lemma reports_initialized calls : ∀ c,
  initialized (reports calls c) = initialized c.
Proof.
  induction calls as [|call calls IH]; intros c; [done|].
  unfold reports in *. simpl. by rewrite IH, report_initialized.
Qed.

Lemma reports_total calls : ∀ c,
  initialized c = true →
  total_issues (data (reports calls c))
  = total_issues (data c) + Z.of_nat (length calls).
Proof.
  induction calls as [|call calls IH]; intros c Hinit; [simpl; lia|].
  unfold reports in *. cbn [fold_left]. rewrite IH.
  - unfold report. rewrite Hinit. cbn [negb fst data total_issues length]. lia.
  - by rewrite report_initialized.
Qed.

Lemma take_app_take {A} (n : nat) (front rest : list A) :
  take n (front ++ take n rest)%list = take n (front ++ rest)%list.
Proof. rewrite !take_app, take_take. do 2 f_equal. lia. Qed.

(** After a sequence of calls the collector holds the records created, the
    newest first, followed by those it held before, cut after the first
    hundred. *)
Lemma reports_issues calls : ∀ c,
  initialized c = true →
  calls ≠ [] →
  issues (data (reports calls c))
  = take MAX_ISSUES
      (rev (map (λ call, new_issue (fst call) (snd call)) calls)
       ++ issues (data c))%list.
Proof.
  induction calls as [|call calls IH]; intros c Hinit Hne; [done|].
  unfold reports in *. cbn [fold_left].
  pose proof (report_issues (fst call) (snd call) c Hinit) as Hone.
  destruct calls as [|call' calls]; [done|].
  rewrite IH; [|by rewrite report_initialized|done].
  rewrite Hone. cbn [map rev].
  rewrite <- (app_assoc _ [new_issue (fst call) (snd call)]).
  apply take_app_take.
Qed.



End IssuesProps.
Module StylesProps.
Import Styles.

(** ** Strings and paths *)

Lemma append_nil (b : string) : "" ++ b = b.
Proof. reflexivity. Qed.

Lemma append_cons (x : ascii) (a b : string) :
  String x a ++ b = String x (a ++ b).
Proof. reflexivity. Qed.

Ltac push_append :=
  repeat (rewrite append_cons in * || rewrite append_nil in * ).

Lemma append_assoc (a b c : string) : (a ++ b) ++ c = a ++ (b ++ c).
Proof. induction a as [|x a IH]; push_append; [done|by f_equal]. Qed.

Lemma length_append (a b : string) :
  String.length (a ++ b) = (String.length a + String.length b)%nat.
Proof. induction a as [|x a IH]; push_append; simpl; [done|by f_equal]. Qed.

Lemma split_slash_cons (s : string) :
  ∃ first others, split_slash s = first :: others.
Proof.
  induction s as [|c s (first & others & IH)]; simpl; [by eauto|].
  destruct (decide (c = "/"%char)); [by eauto|]. rewrite IH. by eauto.
Qed.

Lemma split_slash_length (s : string) : (1 ≤ length (split_slash s))%nat.
Proof. destruct (split_slash_cons s) as (? & ? & ->). simpl. lia. Qed.

Lemma join_slash_cons (part : string) (others : list string) :
  others ≠ [] → join_slash (part :: others) = part ++ "/" ++ join_slash others.
Proof. by destruct others. Qed.

(** Joining what was split gives the string back. *)
Lemma join_split_slash (s : string) : join_slash (split_slash s) = s.
Proof.
  induction s as [|c s IH]; [done|]. simpl.
  destruct (split_slash_cons s) as (first & others & Hs).
  destruct (decide (c = "/"%char)) as [->|Hc].
  - rewrite join_slash_cons by (by rewrite Hs). push_append. by rewrite IH.
  - rewrite Hs in *. destruct others as [|second others].
    + simpl in *. by rewrite IH.
    + rewrite join_slash_cons in IH by done.
      rewrite join_slash_cons by done. push_append. by rewrite IH.
Qed.

Lemma join_slash_app (l1 l2 : list string) :
  l1 ≠ [] → l2 ≠ [] →
  join_slash (l1 ++ l2)%list = join_slash l1 ++ "/" ++ join_slash l2.
Proof.
  intros Hl1 Hl2. induction l1 as [|x l1 IH]; [done|].
  destruct l1 as [|y l1].
  - simpl. by destruct l2.
  - change ((x :: y :: l1) ++ l2)%list with (x :: ((y :: l1) ++ l2))%list.
    rewrite join_slash_cons by done.
    rewrite (join_slash_cons x (y :: l1)) by done.
    rewrite IH by done. by rewrite !append_assoc.
Qed.

(** Splitting distributes over a slash. *)
Lemma split_slash_app (p rest : string) :
  split_slash (p ++ "/" ++ rest)
  = (split_slash p ++ split_slash rest)%list.
Proof.
  induction p as [|c p IH]; push_append; [done|]. simpl.
  destruct (decide (c = "/"%char)) as [->|Hc].
  - by rewrite IH.
  - rewrite IH.
    by destruct (split_slash_cons p) as (first & others & ->).
Qed.

(** [strip_trailing_slashes] removes a run of slashes from the end and
    leaves a string that does not end with a slash. *)
Lemma strip_trailing_slashes_spec (s : string) :
  (∃ k : nat, s = strip_trailing_slashes s
                  ++ String.string_of_list_ascii (replicate k "/"%char))
  ∧ ∀ front, strip_trailing_slashes s ≠ front ++ "/".
Proof.
  induction s as [|c s [(k & Hk) Hend]]; simpl.
  - split; [by exists 0%nat|]. intros [|x front]; push_append; discriminate.
  - destruct (decide (c = "/"%char)) as [->|Hc].
    + destruct (strip_trailing_slashes s) as [|c' s'] eqn:Hs.
      * split; [|intros [|x front]; push_append; discriminate].
        exists (S k). simpl. push_append. by f_equal.
      * split; [exists k; push_append; by rewrite <- Hk|].
        intros [|x front]; push_append; [done|].
        intros [= <- Heq]. by apply (Hend front).
    + split; [exists k; push_append; by rewrite <- Hk|].
      intros [|x front]; push_append.
      * intros [= -> _]. done.
      * intros [= <- Heq]. by apply (Hend front).
Qed.

(** ** Ancestor directories *)

Lemma candidate_is_ancestor (n : string) (i : nat) :
  (1 ≤ i < length (split_slash n))%nat → is_ancestor (candidate n i) n.
Proof.
  intros Hi. exists (join_slash (drop i (split_slash n))).
  unfold candidate. rewrite <- join_slash_app.
  - by rewrite take_drop, join_split_slash.
  - intros Hnil%(f_equal length). rewrite length_take in Hnil. simpl in Hnil. lia.
  - intros Hnil%(f_equal length). rewrite length_drop in Hnil. simpl in Hnil. lia.
Qed.

Lemma ancestor_is_candidate (p n : string) :
  is_ancestor p n →
  ∃ i, (1 ≤ i < length (split_slash n))%nat ∧ p = candidate n i.
Proof.
  intros [rest ->]. exists (length (split_slash p)).
  pose proof (split_slash_length p). pose proof (split_slash_length rest).
  unfold candidate. rewrite split_slash_app, length_app.
  split; [lia|]. by rewrite take_app_length, join_split_slash.
Qed.

Lemma candidate_length_S (n : string) (i : nat) :
  (1 ≤ i < length (split_slash n))%nat →
  (String.length (candidate n i) < String.length (candidate n (S i)))%nat.
Proof.
  intros Hi. unfold candidate.
  destruct (lookup_lt_is_Some_2 (split_slash n) i) as [part Hpart]; [lia|].
  rewrite (take_S_r _ _ _ Hpart), join_slash_app.
  - rewrite !length_append. simpl. lia.
  - intros Hnil%(f_equal length). rewrite length_take in Hnil. simpl in Hnil. lia.
  - done.
Qed.

(** A deeper candidate is a longer string. *)
Lemma candidate_length_mono (n : string) (i j : nat) :
  (1 ≤ i)%nat → (i < j)%nat → (j ≤ length (split_slash n))%nat →
  (String.length (candidate n i) < String.length (candidate n j))%nat.
Proof.
  intros Hi Hij Hj. induction j as [|j IH]; [lia|].
  destruct (decide (i = j)) as [->|Hne].
  - apply candidate_length_S. lia.
  - etrans; [apply IH; lia|]. apply candidate_length_S. lia.
Qed.

Lemma lookup_style_matchedPath e config key r :
  lookup_style e config key = Some r → matchedPath r = key.
Proof.
  unfold lookup_style. intros Hr.
  destruct (js_get e (m_folders config) key) as [styleName|]; [|done].
  destruct (style_tags e config (property_key styleName)); [|done].
  by injection Hr as <-.
Qed.

Lemma lookup_style_Some e config key r :
  lookup_style e config key = Some r
  ↔ matchedPath r = key
    ∧ js_get e (m_folders config) key = Some (style r)
    ∧ style_tags e config (property_key (style r)) = Some (tags r).
Proof.
  unfold lookup_style. split.
  - intros Hr. destruct (js_get e (m_folders config) key) as [styleName|]; [|done].
    destruct (style_tags e config (property_key styleName)) as [t|] eqn:Ht;
      [|done].
    by injection Hr as <-.
  - intros (<- & -> & ->). by destruct r.
Qed.

(** The loop returns the candidate of largest index that resolves. *)
Lemma walk_parents_Some e config n i r :
  walk_parents e config (split_slash n) i = Some r
  ↔ ∃ j, (1 ≤ j ≤ i)%nat
      ∧ lookup_style e config (candidate n j) = Some r
      ∧ ∀ k, (j < k ≤ i)%nat → lookup_style e config (candidate n k) = None.
Proof.
  induction i as [|i IH].
  - simpl. split; [done|]. intros (j & ? & _). lia.
  - cbn [walk_parents]. fold (candidate n (S i)).
    destruct (lookup_style e config (candidate n (S i))) as [r'|] eqn:Hr.
    + split.
      * intros [= ->]. exists (S i). split; [lia|]. split; [done|]. intros; lia.
      * intros (j & Hj & Hjr & Hlater).
        destruct (decide (j = S i)) as [->|Hne]; [congruence|].
        rewrite Hlater in Hr by lia. done.
    + rewrite IH. split.
      * intros (j & Hj & Hjr & Hlater). exists j. split; [lia|]. split; [done|].
        intros k Hk. destruct (decide (k = S i)) as [->|]; [done|].
        apply Hlater. lia.
      * intros (j & Hj & Hjr & Hlater).
        destruct (decide (j = S i)) as [->|Hne]; [congruence|].
        exists j. split; [lia|]. split; [done|]. intros k Hk. apply Hlater. lia.
Qed.

Lemma walk_parents_None e config n i :
  walk_parents e config (split_slash n) i = None
  ↔ ∀ j, (1 ≤ j ≤ i)%nat → lookup_style e config (candidate n j) = None.
Proof.
  induction i as [|i IH].
  - simpl. split; [intros; lia|done].
  - cbn [walk_parents]. fold (candidate n (S i)).
    destruct (lookup_style e config (candidate n (S i))) as [r'|] eqn:Hr.
    + split; [done|]. intros Hall. rewrite Hall in Hr by lia. done.
    + rewrite IH. split.
      * intros Hall j Hj. destruct (decide (j = S i)) as [->|]; [done|].
        apply Hall. lia.
      * intros Hall j Hj. apply Hall. lia.
Qed.

(** The walk over the parents finds the nearest enclosing ancestor that
    resolves, the longest one. *)
Lemma walk_parents_nearest e config n r :
  walk_parents e config (split_slash n) (length (split_slash n) - 1) = Some r
  ↔ is_ancestor (matchedPath r) n
    ∧ lookup_style e config (matchedPath r) = Some r
    ∧ ∀ q, is_ancestor q n →
        (String.length (matchedPath r) < String.length q)%nat →
        lookup_style e config q = None.
Proof.
  rewrite walk_parents_Some. split.
  - intros (j & Hj & Hjr & Hlater).
    rewrite (lookup_style_matchedPath _ _ _ _ Hjr).
    split; [apply candidate_is_ancestor; lia|]. split; [done|].
    intros q (k & Hk & ->)%ancestor_is_candidate Hlen.
    apply Hlater. split; [|lia].
    destruct (decide (j < k)%nat) as [|Hge]; [done|exfalso].
    destruct (decide (k = j)) as [->|Hne]; [lia|].
    pose proof (candidate_length_mono n k j). lia.
  - intros ((j & Hj & Hp)%ancestor_is_candidate & Hr & Hlonger).
    exists j. rewrite <- Hp. split; [lia|]. split; [done|].
    intros k Hk. apply Hlonger.
    + apply candidate_is_ancestor. lia.
    + rewrite Hp. apply candidate_length_mono; lia.
Qed.

Lemma walk_parents_nothing e config n :
  walk_parents e config (split_slash n) (length (split_slash n) - 1) = None
  ↔ ∀ q, is_ancestor q n → lookup_style e config q = None.
Proof.
  rewrite walk_parents_None. split.
  - intros Hall q (k & Hk & ->)%ancestor_is_candidate. apply Hall. lia.
  - intros Hall j Hj. apply Hall, candidate_is_ancestor. lia.
Qed.

(** ** Resolution of a folder *)

Lemma resolve_exact e config folderPath r :
  lookup_style e config (strip_trailing_slashes folderPath) = Some r →
  resolve e config folderPath = Some r.
Proof. unfold resolve. by intros ->. Qed.

Lemma resolve_parents e config folderPath :
  lookup_style e config (strip_trailing_slashes folderPath) = None →
  resolve e config folderPath
  = walk_parents e config (split_slash (strip_trailing_slashes folderPath))
      (length (split_slash (strip_trailing_slashes folderPath)) - 1).
Proof. unfold resolve. by intros ->. Qed.

(** C4 (what the code does).  In a fresh process on a machine without
    config files, save the style S1 = [t1] in the project scope, associate
    [/a] with S1 and [/a/b] with the name "constructor", which is the name
    of no style: the merged styles hold S1 only.  [getStyleTags], the
    check that the tool makes before it associates a folder, nevertheless
    finds something for "constructor", the function that every object
    inherits under that name.  Resolving [/a/b/c] then does not give S1
    matched at [/a], the nearest ancestor whose association resolves to an
    existing style: it gives the style name "constructor" matched at
    [/a/b], with that function for tags.  Resolving [/a/x] gives S1 matched
    at [/a]. *)
Theorem getStyleForFolder_inherited_style_name :
  let w := setFolderStyle "/a/b" "constructor" project
             (setFolderStyle "/a" "S1" project
                (saveStyle "S1" ["t1"] project (fresh_world "/proj"))) in
  m_styles (getMergedConfig w) = {["S1" := ["t1"]]}
  ∧ m_folders (getMergedConfig w) !! "/a" = Some "S1"
  ∧ m_folders (getMergedConfig w) !! "/a/b" = Some "constructor"
  ∧ m_folders (getMergedConfig w) !! "/a/b/c" = None
  ∧ getStyleTags "constructor" w = Some (From_prototype (Builtin "constructor"))
  ∧ getStyleForFolder "/a/b/c" w
    = Some {| style := Own_value "constructor";
              tags := From_prototype (Builtin "constructor");
              matchedPath := "/a/b" |}
  ∧ getStyleForFolder "/a/x" w
    = Some {| style := Own_value "S1"; tags := Own_value ["t1"];
              matchedPath := "/a" |}.
Proof. vm_compute. repeat split. Qed.

(** C10 (what the code does).  With [/a] associated to the existing style
    S1 and [/a/b] to the name "toString", which no style has,
    [getStyleForFolder] called on [/a/b] itself does not fall through to
    the ancestors: it returns at once, with the style name "toString"
    matched at [/a/b] and, for tags, the function that every object
    inherits under that name.  With [/a/b] associated to a name that
    nothing defines and no object inherits, it falls through and returns S1
    matched at [/a]. *)
Theorem getStyleForFolder_dangling_inherited_name :
  (let w := setFolderStyle "/a/b" "toString" global
              (setFolderStyle "/a" "S1" global
                 (saveStyle "S1" ["t1"] global (fresh_world "/proj"))) in
   m_folders (getMergedConfig w) !! "/a/b" = Some "toString"
   ∧ m_styles (getMergedConfig w) !! "toString" = None
   ∧ getStyleForFolder "/a/b" w
     = Some {| style := Own_value "toString";
               tags := From_prototype (Builtin "toString");
               matchedPath := "/a/b" |})
  ∧ (let w := setFolderStyle "/a/b" "ghost" global
                (setFolderStyle "/a" "S1" global
                   (saveStyle "S1" ["t1"] global (fresh_world "/proj"))) in
     m_folders (getMergedConfig w) !! "/a/b" = Some "ghost"
     ∧ m_styles (getMergedConfig w) !! "ghost" = None
     ∧ getStyleForFolder "/a/b" w
       = Some {| style := Own_value "S1"; tags := Own_value ["t1"];
                 matchedPath := "/a" |}).
Proof. vm_compute. repeat split. Qed.

(** ** Merging the two scopes *)

Lemma lookup_spread {V : Type} (m acc : gmap string V) (k : string) :
  spread m acc !! k
  = match m !! k with
    | Some v => Some v
    | None => acc !! k
    end.
Proof.
  unfold spread. revert k.
  apply (map_fold_weak_ind
           (λ r m, ∀ k, r !! k = match m !! k with
                                 | Some v => Some v
                                 | None => acc !! k
                                 end)).
  - intros k. by rewrite lookup_empty.
  - intros i x m' r Hi IH k. destruct (decide (i = k)) as [->|Hne].
    + by rewrite !lookup_insert_eq.
    + by rewrite !lookup_insert_ne, IH by done.
Qed.

Lemma lookup_mark_all {V : Type} (mark : Scope) (m : gmap string V)
    (acc : gmap string Scope) (k : string) :
  k ≠ "__proto__" →
  mark_all mark m acc !! k
  = match m !! k with
    | Some _ => Some mark
    | None => acc !! k
    end.
Proof.
  intros Hk. unfold mark_all.
  apply (map_fold_weak_ind
           (λ r m, r !! k = match m !! k with
                            | Some _ => Some mark
                            | None => acc !! k
                            end)).
  - by rewrite lookup_empty.
  - intros i x m' r Hi IH. destruct (decide (i = k)) as [->|Hne].
    + by rewrite lookup_insert_eq, lookup_js_assign_eq.
    + by rewrite lookup_insert_ne, lookup_js_assign_ne by done.
Qed.

Lemma lookup_mark_all_proto {V : Type} (mark : Scope) (m : gmap string V)
    (acc : gmap string Scope) :
  acc !! "__proto__" = None → mark_all mark m acc !! "__proto__" = None.
Proof.
  intros Hacc. unfold mark_all.
  apply (map_fold_weak_ind (λ r _, r !! "__proto__" = None)); [done|].
  intros i x m' r Hi IH. destruct (decide (i = "__proto__")) as [->|Hne].
  - by rewrite lookup_js_assign_proto.
  - by rewrite lookup_js_assign_ne.
Qed.

Lemma merge_lookup (g p : StyleConfig) :
  (∀ name, m_styles (merge g p) !! name = overlay (styles g) (styles p) name)
  ∧ (∀ path, m_folders (merge g p) !! path
             = overlay (folders g) (folders p) path)
  ∧ (∀ name, name ≠ "__proto__" →
       src_styles (_sources (merge g p)) !! name
       = provenance (styles g) (styles p) name)
  ∧ (∀ path, path ≠ "__proto__" →
       src_folders (_sources (merge g p)) !! path
       = provenance (folders g) (folders p) path)
  ∧ src_styles (_sources (merge g p)) !! "__proto__" = None
  ∧ src_folders (_sources (merge g p)) !! "__proto__" = None.
Proof.
  unfold merge, overlay, provenance; simpl.
  split; [|split; [|split; [|split; [|split]]]].
  - intros k. rewrite !lookup_spread, lookup_empty.
    by destruct (styles p !! k), (styles g !! k).
  - intros k. rewrite !lookup_spread, lookup_empty.
    by destruct (folders p !! k), (folders g !! k).
  - intros k Hk. rewrite !lookup_mark_all, lookup_empty by done.
    by destruct (styles p !! k), (styles g !! k).
  - intros k Hk. rewrite !lookup_mark_all, lookup_empty by done.
    by destruct (folders p !! k), (folders g !! k).
  - apply lookup_mark_all_proto, lookup_mark_all_proto, lookup_empty.
  - apply lookup_mark_all_proto, lookup_mark_all_proto, lookup_empty.
Qed.

(** C5 (what the code does).  On a machine whose global config file defines
    a style named ["__proto__"] with tags [tag1] and whose project config
    file defines one with tags [tag2], both scopes present the style and
    the merged styles give it the project's tags, [tag2]; but the
    provenance has no entry for it at all, neither "project" nor "global":
    the assignment [sources.styles[name] = ...] ran the setter inherited
    from [Object.prototype], which stores nothing, where the object spread
    that builds the merged styles defines the key.  Reading
    [sources.styles[name]] gives [Object.prototype]. *)
Theorem merge_proto_style_has_no_source :
  styles (scope_config global world_with_proto_styles) !! "__proto__"
    = Some ["tag1"]
  ∧ styles (scope_config project world_with_proto_styles) !! "__proto__"
    = Some ["tag2"]
  ∧ m_styles (getMergedConfig world_with_proto_styles) !! "__proto__"
    = Some ["tag2"]
  ∧ src_styles (_sources (getMergedConfig world_with_proto_styles)) = ∅
  ∧ js_get (engine world_with_proto_styles)
      (src_styles (_sources (getMergedConfig world_with_proto_styles)))
      "__proto__"
    = Some (From_prototype (Builtin "__proto__")).
Proof. vm_compute. repeat split. Qed.

(** ** Deleting a style *)

Lemma lookup_remove_associations (name : string) (fs : gmap string string)
    (folder : string) :
  remove_associations name fs !! folder
  = match fs !! folder with
    | Some styleName => if decide (styleName = name) then None else Some styleName
    | None => None
    end.
Proof.
  unfold remove_associations.
  cut (∀ start : gmap string string,
         map_fold (λ folder styleName acc,
                     if decide (styleName = name) then delete folder acc else acc)
                  start fs !! folder
         = match fs !! folder with
           | Some styleName =>
               if decide (styleName = name) then None else start !! folder
           | None => start !! folder
           end).
  { intros Hcut. rewrite Hcut. destruct (fs !! folder) as [s|]; [|done].
    by destruct (decide (s = name)). }
  intros start. revert folder.
  apply (map_fold_weak_ind
           (λ r m, ∀ folder,
              r !! folder = match m !! folder with
                            | Some styleName =>
                                if decide (styleName = name) then None
                                else start !! folder
                            | None => start !! folder
                            end)).
  - intros folder. by rewrite lookup_empty.
  - intros i x m r Hi IH folder. destruct (decide (i = folder)) as [->|Hne].
    + rewrite lookup_insert_eq. destruct (decide (x = name)).
      * by rewrite lookup_delete_eq.
      * by rewrite IH, Hi.
    + rewrite lookup_insert_ne by done. destruct (decide (x = name)).
      * by rewrite lookup_delete_ne, IH.
      * by rewrite IH.
Qed.

(** What a scope presents once its file has been written. *)
Lemma scope_config_writeScope (scope : Scope) (c : StyleConfig) (w : World) :
  scope_config scope (writeScope scope c w) = c.
Proof.
  unfold scope_config, readScope. destruct scope; simpl.
  - by destruct c.
  - unfold getProjectConfigPath. simpl. rewrite lookup_insert_eq. simpl.
    by destruct c.
Qed.

(** C8 (what the code does).  On a machine without config files, save the
    style x in the global scope, then delete x from the project scope.  The
    project scope has no file and x was never saved in it, yet [deleteStyle]
    returns [true] and creates an empty project file: reading the absent
    project file gave an object sharing the dictionaries of
    [DEFAULT_CONFIG], into which the earlier [saveStyle], reading the absent
    global file, had written x.  And on a machine without config files,
    save x in the project scope under one project root, move to a project
    root without a config file, and delete x from the project scope: the
    global scope, which has no file either, presents x before the call and
    does not present it after, so the call changed what the other scope
    holds. *)
Theorem deleteStyle_shared_default_dictionaries :
  (let w0 := fresh_world "/proj" in
   let w1 := saveStyle "x" ["t"] global w0 in
   let w2 := fst (deleteStyle "x" project w1) in
   scope_file project w0 = None
   ∧ scope_file project w1 = None
   ∧ snd (deleteStyle "x" project w1) = true
   ∧ scope_file project w2 = Some (Parsed (Some ∅) (Some ∅))
   ∧ styles (DEFAULT_CONFIG w0) !! "x" = None
   ∧ styles (DEFAULT_CONFIG w1) !! "x" = Some ["t"])
  ∧ (let w0 := fresh_world "/one" in
     let w1 := saveStyle "x" ["t"] project w0 in
     let w2 := setProjectRoot "/two" w1 in
     let w3 := fst (deleteStyle "x" project w2) in
     scope_file global w2 = None
     ∧ scope_file project w2 = None
     ∧ snd (deleteStyle "x" project w2) = true
     ∧ styles (scope_config global w2) !! "x" = Some ["t"]
     ∧ styles (scope_config global w3) !! "x" = None
     ∧ scope_file global w3 = None).
Proof. vm_compute. repeat split. Qed.

End StylesProps.

(** ** Use before initialization *)



(** * Further properties of the ledger *)

Module MetricsMore.
Import Metrics MetricsProps.

Section WithSerializer.

Variable JSON_stringify_length : MetricsData → nat.

Local Notation "'trim'" := (trimInvocationsForSize JSON_stringify_length).
Local Notation "'cond'" := (trim_cond JSON_stringify_length).
Local Notation "'run'" := (Metrics.run JSON_stringify_length).
Local Notation "'step'" := (Metrics.step JSON_stringify_length).




Lemma record_invocations now inv c :
  initialized c = true →
  invocations (data (record now inv c)) = (invocations (data c) ++ [inv])%list.
Proof.
  intros Hinit. unfold record. rewrite Hinit. simpl.
  by destruct (updateToolStats_cases inv (engine c) (pushed now inv (data c)))
    as [(st & -> & _)|[(e' & -> & _)|(message & -> & _)]].
Qed.


Lemma flush_invocations ok c :
  invocations (data (step c (Flush ok))) `suffix_of` invocations (data c).
Proof. simpl. destruct (writeQueue c); [done|]. simpl. apply trim_suffix. Qed.


(** X2.  The sequence held in memory is always a suffix of everything recorded:
    the invocations held at the start followed by those recorded since, in
    the order of the calls.  Entries leave only from the old end, never
    from the middle, and the order never changes; so whenever something is
    held after a call of [record], the newest entry held is the invocation
    recorded last. *)
Theorem invocations_are_a_recent_suffix (c : MetricsCollector)
    (events : list Event) :
  initialized c = true →
  invocations (data (run events c))
    `suffix_of` (invocations (data c) ++ records_of events)%list
  ∧ (length (invocations (data (run events c)))
     ≤ length (invocations (data c)) + length (records_of events))%nat
  ∧ (records_of events ≠ [] →
     invocations (data (run events c)) ≠ [] →
     last (invocations (data (run events c))) = last (records_of events)).
Proof.
  intros Hinit.
  assert (invocations (data (run events c))
            `suffix_of` (invocations (data c) ++ records_of events)%list)
    as Hsuffix.
  { revert c Hinit. induction events as [|e events IH]; intros c Hinit.
    - simpl. by rewrite app_nil_r.
    - rewrite run_cons. destruct e as [now inv|ok]; simpl records_of.
      + etrans; [apply IH; by rewrite step_initialized|].
        simpl step. rewrite record_invocations by done.
        by rewrite <- app_assoc.
      + etrans; [apply IH; by rewrite step_initialized|].
        apply suffix_app, flush_invocations. }
  split; [done|]. split.
  - apply suffix_length in Hsuffix. by rewrite length_app in Hsuffix.
  - intros Hrec Hheld. destruct Hsuffix as [dropped Heq].
    apply (f_equal last) in Heq.
    rewrite (last_app dropped) in Heq.
    destruct (last (invocations (data (run events c)))) as [x|] eqn:Hlast.
    + rewrite <- Heq, last_app.
      destruct (last (records_of events)) eqn:Hr; [done|].
      by apply last_None in Hr.
    + by apply last_None in Hlast.
Qed.

(** X3.  For a tool without statistics at the start, and whose name is not
    one that objects inherit, once it has been recorded its entry has
    [call_count] equal to the number of its recorded invocations,
    [success_count] equal to the number of those that succeeded,
    [error_count] equal to the number of those that failed, [last_used]
    equal to the time stamp of the one recorded last, [total_duration_ms]
    equal to their durations added up in the order of the calls, and
    [avg_duration_ms] equal to the duration itself after one invocation and
    to [Math.round] of total / count after more; whatever other tools were
    recorded and whatever the flushes trimmed in between. *)
Theorem outcome_counters_and_last_used (c : MetricsCollector)
    (events : list Event) (name : string) :
  initialized c = true →
  plain_name name →
  tool_stats (data c) !! name = None →
  recorded name events ≠ [] →
  ∃ st newest,
    tool_stats (data (run events c)) !! name = Some st
    ∧ call_count st = Z.of_nat (length (recorded name events))
    ∧ success_count st
      = Z.of_nat (length (filter (λ i, success i = true) (recorded name events)))
    ∧ error_count st
      = Z.of_nat (length (filter (λ i, success i = false) (recorded name events)))
    ∧ last (recorded name events) = Some newest
    ∧ last_used st = timestamp newest
    ∧ total_duration_ms st = sum_durations (recorded name events)
    ∧ avg_duration_ms st = average_of (recorded name events).
Proof.
  intros Hinit Hname Hnone Hrec.
  pose proof (run_stats_agree JSON_stringify_length name events c [] Hinit Hname)
    as Hagree.
  rewrite Hnone in Hagree. specialize (Hagree eq_refl).
  rewrite app_nil_l in Hagree.
  destruct (tool_stats (data (run events c)) !! name) as [st|]; [|done].
  destruct Hagree as (_ & Hcount & Hs & He & (newest & Hlast & Hused) & Ht & Ha).
  by exists st, newest.
Qed.





(** X5.  Trimming to a maximum and then to a smaller one is trimming to the
    smaller one: so trimming twice to the same maximum changes nothing more,
    and what a smaller maximum keeps is a suffix of what a larger keeps. *)
Theorem trim_to_smaller_maximum (d : MetricsData) (smaller larger : Z) :
  smaller ≤ larger →
  trim (trim d larger) smaller = trim d smaller
  ∧ trim (trim d larger) larger = trim d larger
  ∧ invocations (trim d smaller) `suffix_of` invocations (trim d larger).
Proof.
  intros Hle.
  assert (∀ m1 m2, m1 ≤ m2 → trim (trim d m2) m1 = trim d m1) as Hfactor.
  { intros m1 m2 Hm. clear Hle.
    induction d as [d Hc|d Hc IH] using (trim_loop_ind JSON_stringify_length m2).
    - by rewrite (trim_loop_eq _ d m2), Hc.
    - rewrite (trim_loop_eq _ d m2), Hc, IH.
      rewrite (trim_loop_eq _ d m1).
      apply trim_cond_true in Hc as [Hsize Hne].
      assert (cond d m1 = true) as -> by (apply trim_cond_true; split; [lia|done]).
      done. }
  split; [by apply Hfactor|]. split; [apply Hfactor; lia|].
  rewrite <- (Hfactor smaller larger Hle). apply trim_suffix.
Qed.

(** X6.  The loop does not overshoot by more than its last step: if it removed
    anything, its result is one application of the body to a document that
    still exceeded the maximum, so at most [max(1, floor(count / 4))] entries
    of that document went and at least three quarters of them, less one,
    are kept. *)
Theorem trim_overshoots_by_one_step_at_most (d : MetricsData)
    (maxSizeBytes : Z) :
  trim d maxSizeBytes ≠ d →
  ∃ previous,
    cond previous maxSizeBytes = true
    ∧ invocations previous `suffix_of` invocations d
    ∧ trim d maxSizeBytes = trim_body previous
    ∧ (length (invocations (trim d maxSizeBytes))
       + removeCount (length (invocations previous))
       = length (invocations previous))%nat
    ∧ (3 * length (invocations previous)
       ≤ 4 * length (invocations (trim d maxSizeBytes)) + 4)%nat.
Proof.
  induction d as [d Hc|d Hc IH] using (trim_loop_ind JSON_stringify_length maxSizeBytes).
  - intros Hne. by rewrite trim_loop_eq, Hc in Hne.
  - intros _. rewrite trim_loop_eq, Hc.
    destruct (cond (trim_body d) maxSizeBytes) eqn:Hnext.
    + destruct IH as (previous & Hprev & Hsuf & Heq & Hlen & Hbound).
      { rewrite trim_loop_eq, Hnext. intros Heq.
        apply trim_cond_true in Hnext as [_ Hne].
        pose proof (trim_body_shrinks (trim_body d) Hne).
        pose proof (suffix_length _ _
                      (trim_suffix JSON_stringify_length (trim_body (trim_body d))
                         maxSizeBytes)).
        rewrite Heq in *. lia. }
      exists previous. split; [done|]. split; [|done].
      etrans; [exact Hsuf|]. simpl. apply suffix_drop.
    + exists d. rewrite (trim_loop_eq _ (trim_body d)), Hnext.
      split; [done|]. split; [done|]. split; [done|].
      apply trim_cond_true in Hc as [_ Hne].
      cbn [trim_body invocations]. rewrite length_drop.
      assert (0 < length (invocations d))%nat
        by (destruct (invocations d); [done|simpl; lia]).
      unfold removeCount.
      pose proof (Nat.div_mod_eq (length (invocations d)) 4).
      pose proof (Nat.mod_upper_bound (length (invocations d)) 4 ltac:(lia)).
      lia.
Qed.

End WithSerializer.

(** *** Instances on the sample collector *)

Lemma invocations_are_a_recent_suffix_witness :
  initialized sample_collector = true
  ∧ invocations (data (Metrics.run sample_length sample_events sample_collector))
      `suffix_of` (invocations (data sample_collector)
                   ++ records_of sample_events)%list
  ∧ length (invocations
              (data (Metrics.run sample_length sample_events sample_collector)))
    = 2%nat.
Proof.
  split; [reflexivity|].
  split; [|reflexivity].
  apply (invocations_are_a_recent_suffix sample_length sample_collector
           sample_events eq_refl).
Defined.

Lemma plain_name_search : plain_name "search".
Proof.
  split; intros Hin; vm_compute in Hin;
    repeat (apply elem_of_cons in Hin as [Heq|Hin]; [discriminate Heq|]);
    by apply elem_of_nil in Hin.
Qed.

Lemma outcome_counters_and_last_used_witness :
  initialized sample_collector = true
  ∧ plain_name "search"
  ∧ tool_stats (data sample_collector) !! "search" = None
  ∧ recorded "search" sample_events ≠ []
  ∧ ∃ st,
      tool_stats (data (Metrics.run sample_length sample_events sample_collector))
        !! "search" = Some st
      ∧ call_count st = 3
      ∧ success_count st = 2
      ∧ error_count st = 1
      ∧ total_duration_ms st = 600%float
      ∧ avg_duration_ms st = 200%float.
Proof.
  split; [reflexivity|]. split; [exact plain_name_search|].
  split; [reflexivity|].
  assert (recorded "search" sample_events ≠ []) as Hne.
  { intros Hnil. vm_compute in Hnil. discriminate Hnil. }
  split; [exact Hne|].
  destruct (outcome_counters_and_last_used sample_length sample_collector
              sample_events "search" eq_refl plain_name_search eq_refl Hne)
    as (st & newest & Hst & Hc & Hs & He & _ & _ & Ht & Ha).
  exists st. split; [exact Hst|].
  split; [rewrite Hc; reflexivity|].
  split; [rewrite Hs; reflexivity|].
  split; [rewrite He; reflexivity|].
  split; [rewrite Ht; reflexivity|rewrite Ha; reflexivity].
Defined.



Lemma trim_to_smaller_maximum_witness :
  120 ≤ 220
  ∧ trimInvocationsForSize sample_length
      (trimInvocationsForSize sample_length
         (data (fold_left (Metrics.step sample_length)
                  [ Record_ "t1" (sample_invocation "search" 100 true);
                    Record_ "t2" (sample_invocation "search" 200 false);
                    Record_ "t3" (sample_invocation "echo" 7 true) ]
                  sample_collector)) 220) 120
    = trimInvocationsForSize sample_length
        (data (fold_left (Metrics.step sample_length)
                 [ Record_ "t1" (sample_invocation "search" 100 true);
                   Record_ "t2" (sample_invocation "search" 200 false);
                   Record_ "t3" (sample_invocation "echo" 7 true) ]
                 sample_collector)) 120.
Proof.
  assert (120 ≤ 220) as Hle by (intros Hgt; discriminate Hgt).
  split; [exact Hle|].
  apply (trim_to_smaller_maximum sample_length
           (data (fold_left (Metrics.step sample_length)
                    [ Record_ "t1" (sample_invocation "search" 100 true);
                      Record_ "t2" (sample_invocation "search" 200 false);
                      Record_ "t3" (sample_invocation "echo" 7 true) ]
                    sample_collector)) 120 220 Hle).
Defined.

Lemma trim_overshoots_by_one_step_at_most_witness :
  trimInvocationsForSize sample_length
    (data (fold_left (Metrics.step sample_length)
             [ Record_ "t1" (sample_invocation "search" 100 true);
               Record_ "t2" (sample_invocation "search" 200 false);
               Record_ "t3" (sample_invocation "echo" 7 true) ]
             sample_collector)) 120
  ≠ data (fold_left (Metrics.step sample_length)
            [ Record_ "t1" (sample_invocation "search" 100 true);
              Record_ "t2" (sample_invocation "search" 200 false);
              Record_ "t3" (sample_invocation "echo" 7 true) ]
            sample_collector)
  ∧ ∃ previous,
      trim_cond sample_length previous 120 = true
      ∧ trimInvocationsForSize sample_length
          (data (fold_left (Metrics.step sample_length)
                   [ Record_ "t1" (sample_invocation "search" 100 true);
                     Record_ "t2" (sample_invocation "search" 200 false);
                     Record_ "t3" (sample_invocation "echo" 7 true) ]
                   sample_collector)) 120
        = trim_body previous.
Proof.
  assert (trimInvocationsForSize sample_length
            (data (fold_left (Metrics.step sample_length)
                     [ Record_ "t1" (sample_invocation "search" 100 true);
                       Record_ "t2" (sample_invocation "search" 200 false);
                       Record_ "t3" (sample_invocation "echo" 7 true) ]
                     sample_collector)) 120
          ≠ data (fold_left (Metrics.step sample_length)
                    [ Record_ "t1" (sample_invocation "search" 100 true);
                      Record_ "t2" (sample_invocation "search" 200 false);
                      Record_ "t3" (sample_invocation "echo" 7 true) ]
                    sample_collector)) as Hne.
  { intros Heq. apply (f_equal (λ d, length (invocations d))) in Heq.
    vm_compute in Heq. discriminate Heq. }
  split; [exact Hne|].
  destruct (trim_overshoots_by_one_step_at_most sample_length _ 120 Hne)
    as (previous & Hprev & _ & Heq & _).
  exists previous. split; [exact Hprev|exact Heq].
Defined.

End MetricsMore.

(** * The metrics wrapper *)

Module WrapperProps.
Import Metrics MetricsProps Wrapper.





End WrapperProps.

(** * Further properties of the issue ledger *)

Module IssuesMore.
Import Issues IssuesProps.

(** X9.  A new issue ledger counts and holds what was reported: after [n] calls
    of [report] on a collector initialized without an issues file,
    [total_issues] is [n] and the ledger holds the [min(n, 100)] issues
    reported last, newest first. *)
Theorem new_issue_ledger_counts (name created now : string)
    (calls : list (ReportEnv * ReportParams)) :
  let c0 := fst (initialize_from now Missing (new_IssueCollector name created)) in
  snd (initialize_from now Missing (new_IssueCollector name created))
    = Stored (createEmptyIssuesData name now)
  ∧ total_issues (data (reports calls c0)) = Z.of_nat (length calls)
  ∧ length (issues (data (reports calls c0))) = Nat.min (length calls) 100
  ∧ issues (data (reports calls c0))
    = take 100
        (rev (map (λ call, new_issue (fst call) (snd call)) calls)).
Proof.
  intros c0. split; [done|].
  assert (initialized c0 = true) as Hinit by done.
  split; [by rewrite reports_total|].
  destruct calls as [|call calls]; [done|].
  rewrite reports_issues by done.
  change (issues (data c0)) with (@nil IssueReport). rewrite app_nil_r.
  split; [|done].
  rewrite length_take, length_rev, length_map. unfold MAX_ISSUES. lia.
Qed.

End IssuesMore.

(** * Further properties of the style store *)

Module StylesMore.
Import Styles StylesProps.

(** ** What a write does to what each scope presents *)

Lemma scope_file_mutate (s : Scope) (o : ConfigObject) (c : StyleConfig)
    (w : World) :
  scope_file s (mutate o c w) = scope_file s w.
Proof. by destruct o, s. Qed.

Lemma scope_file_set_styles_prototype (s : Scope) (o : ConfigObject)
    (a : list string) (w : World) :
  scope_file s (set_styles_prototype o a w) = scope_file s w.
Proof. by destruct o, s. Qed.

Lemma scope_file_writeScope_other (scope s : Scope) (c : StyleConfig)
    (w : World) :
  s = other_scope scope →
  scope_file s (writeScope scope c w) = scope_file s w.
Proof. intros ->. by destruct scope. Qed.

Lemma scope_config_written (scope : Scope) (c' : StyleConfig) (w : World) :
  scope_config scope (writeScope scope c' (mutate (readScope scope w) c' w)) = c'.
Proof. apply scope_config_writeScope. Qed.

(** After a write to [scope], a scope presents the written config, and then
    it presented before what [scope] did, or it presents what it did. *)
Lemma scope_config_after_write (scope s : Scope) (c' : StyleConfig) (w : World) :
  let w' := writeScope scope c' (mutate (readScope scope w) c' w) in
  (scope_config s w' = c' ∧ scope_config s w = scope_config scope w)
  ∨ scope_config s w' = scope_config s w.
Proof.
  intros w'.
  destruct scope, s;
    try (left; split; [apply scope_config_written|done]);
    subst w'; unfold scope_config, readScope.
  - (* write to global, read project *)
    rewrite (scope_file_writeScope_other global project) by done.
    rewrite scope_file_mutate.
    destruct (readConfigFile (scope_file project w)) as [cp|];
      destruct (readConfigFile (scope_file global w)) as [cg|];
      cbn [contents mutate writeScope DEFAULT_CONFIG]; auto.
  - (* write to project, read global *)
    rewrite (scope_file_writeScope_other project global) by done.
    rewrite scope_file_mutate.
    destruct (readConfigFile (scope_file global w)) as [cg|];
      destruct (readConfigFile (scope_file project w)) as [cp|];
      cbn [contents mutate writeScope DEFAULT_CONFIG]; auto.
Qed.

(** Writing back what a scope presents, after a change of prototype, leaves
    what every scope presents as it was. *)
Lemma scope_config_after_prototype (scope s : Scope) (a : list string)
    (w : World) :
  scope_config s
    (writeScope scope (scope_config scope w)
       (set_styles_prototype (readScope scope w) a w))
  = scope_config s w.
Proof.
  destruct scope, s; try apply scope_config_writeScope;
    unfold scope_config, readScope.
  - rewrite (scope_file_writeScope_other global project) by done.
    rewrite scope_file_set_styles_prototype.
    destruct (readConfigFile (scope_file project w)) as [cp|]; [done|].
    by destruct (readConfigFile (scope_file global w)).
  - rewrite (scope_file_writeScope_other project global) by done.
    rewrite scope_file_set_styles_prototype.
    destruct (readConfigFile (scope_file global w)) as [cg|]; [done|].
    by destruct (readConfigFile (scope_file project w)).
Qed.

Lemma writeScope_engine (scope : Scope) (c : StyleConfig) (w : World) :
  engine (writeScope scope c w) = engine w.
Proof. by destruct scope. Qed.

Lemma mutate_engine (o : ConfigObject) (c : StyleConfig) (w : World) :
  engine (mutate o c w) = engine w.
Proof. by destruct o. Qed.

Lemma saveStyle_engine name tags scope w :
  engine (saveStyle name tags scope w) = engine w.
Proof.
  unfold saveStyle. case_decide; rewrite writeScope_engine.
  - by destruct (readScope scope w).
  - apply mutate_engine.
Qed.

Lemma setFolderStyle_engine folderPath styleName scope w :
  engine (setFolderStyle folderPath styleName scope w) = engine w.
Proof. unfold setFolderStyle. by rewrite writeScope_engine, mutate_engine. Qed.

Lemma merged_styles_overlay (name : string) (w : World) :
  m_styles (getMergedConfig w) !! name
  = overlay (styles (scope_config global w)) (styles (scope_config project w)) name.
Proof. unfold getMergedConfig. apply merge_lookup. Qed.

Lemma merged_folders_overlay (path : string) (w : World) :
  m_folders (getMergedConfig w) !! path
  = overlay (folders (scope_config global w)) (folders (scope_config project w))
      path.
Proof. unfold getMergedConfig. apply merge_lookup. Qed.

(** [getStyleTags] depends on the world through the built-in objects and
    the merged styles only. *)
Lemma getStyleTags_ext (w w' : World) (name : string) :
  engine w' = engine w →
  m_styles (getMergedConfig w') !! name = m_styles (getMergedConfig w) !! name →
  getStyleTags name w' = getStyleTags name w.
Proof.
  intros He Hs. unfold getStyleTags, style_tags, js_get. by rewrite He, Hs.
Qed.

(** ** Saving a style *)

(** X10.  A saved style can be read back, unless its name is ["__proto__"]:
    after [saveStyle name tags scope], [getStyleTags name] gives [tags]
    when the scope is the project, and when it is the global scope
    provided the project scope does not define [name].  The tags of every
    other name and every folder association of the merged config are as
    before.  A style saved under the name ["__proto__"] in a scope that
    does not define that name already is not stored: every scope presents
    what it did. *)
Theorem saveStyle_then_getStyleTags (name : string) (tags : list string)
    (scope : Scope) (w : World) :
  (name ≠ "__proto__" →
   scope = project ∨ styles (scope_config project w) !! name = None →
   getStyleTags name (saveStyle name tags scope w) = Some (Own_value tags))
  ∧ (∀ other, other ≠ name →
       getStyleTags other (saveStyle name tags scope w) = getStyleTags other w)
  ∧ (∀ path,
       m_folders (getMergedConfig (saveStyle name tags scope w)) !! path
       = m_folders (getMergedConfig w) !! path)
  ∧ (name = "__proto__" →
     styles (scope_config scope w) !! name = None →
     ∀ s, scope_config s (saveStyle name tags scope w) = scope_config s w).
Proof.
  set (c := scope_config scope w).
  set (c' := {| styles := <[name := tags]> (styles c); folders := folders c |}).
  assert (¬ (name = "__proto__" ∧ styles c !! name = None) →
          saveStyle name tags scope w
          = writeScope scope c' (mutate (readScope scope w) c' w)) as Hstored.
  { intros Hno. unfold saveStyle. fold (scope_config scope w). fold c.
    by rewrite decide_False. }
  assert (name = "__proto__" ∧ styles c !! name = None →
          ∀ s, scope_config s (saveStyle name tags scope w) = scope_config s w)
    as Hsetter.
  { intros Hyes s. unfold saveStyle. fold (scope_config scope w). fold c.
    rewrite decide_True by done. apply scope_config_after_prototype. }
  pose proof (scope_config_written scope c' w) as Hown.
  pose proof (scope_config_after_write scope global c' w) as Hg.
  pose proof (scope_config_after_write scope project c' w) as Hp.
  cbv zeta in Hg, Hp. fold c in Hg, Hp.
  split; [|split; [|split]].
  - intros Hname Hcase. rewrite Hstored by (by intros [? _]).
    unfold getStyleTags, style_tags, js_get.
    rewrite merged_styles_overlay. unfold overlay.
    destruct scope.
    + destruct Hcase as [?|Hnone]; [done|]. rewrite Hown.
      destruct Hp as [[-> _]| ->].
      * simpl. by rewrite lookup_insert_eq.
      * rewrite Hnone. simpl. by rewrite lookup_insert_eq.
    + rewrite Hown. simpl. by rewrite lookup_insert_eq.
  - intros other Hother. apply getStyleTags_ext; [apply saveStyle_engine|].
    rewrite !merged_styles_overlay. unfold overlay.
    destruct (decide (name = "__proto__" ∧ styles c !! name = None)) as [Hyes|Hno].
    { by rewrite !(Hsetter Hyes). }
    rewrite Hstored by done.
    assert (∀ s, styles (scope_config s
                           (writeScope scope c' (mutate (readScope scope w) c' w)))
                   !! other
                 = styles (scope_config s w) !! other) as Hsame.
    { intros s. destruct (scope_config_after_write scope s c' w) as [[-> ->]| ->];
        [|done]. simpl. by rewrite lookup_insert_ne. }
    by rewrite !Hsame.
  - intros path. rewrite !merged_folders_overlay. unfold overlay.
    destruct (decide (name = "__proto__" ∧ styles c !! name = None)) as [Hyes|Hno].
    { by rewrite !(Hsetter Hyes). }
    rewrite Hstored by done.
    assert (∀ s, folders (scope_config s
                            (writeScope scope c' (mutate (readScope scope w) c' w)))
                 = folders (scope_config s w))
      as Hsame.
    { intros s. by destruct (scope_config_after_write scope s c' w)
        as [[-> ->]| ->]. }
    by rewrite !Hsame.
  - intros Hname Hnone. by apply Hsetter.
Qed.

(** ** Normalization of folder paths *)

Lemma strip_trailing_slashes_cons (c : ascii) (s : string) :
  strip_trailing_slashes (String c s)
  = if decide (c = "/"%char) then
      match strip_trailing_slashes s with
      | EmptyString => EmptyString
      | _ => String c (strip_trailing_slashes s)
      end
    else String c (strip_trailing_slashes s).
Proof. reflexivity. Qed.

Lemma strip_trailing_slashes_app_slash (s : string) :
  strip_trailing_slashes (s ++ "/") = strip_trailing_slashes s.
Proof.
  induction s as [|c s IH]; push_append; [done|].
  rewrite !strip_trailing_slashes_cons. by rewrite IH.
Qed.

Lemma strip_trailing_slashes_idemp (s : string) :
  strip_trailing_slashes (strip_trailing_slashes s) = strip_trailing_slashes s.
Proof.
  induction s as [|c s IH]; [done|]. rewrite strip_trailing_slashes_cons.
  destruct (decide (c = "/"%char)) as [->|Hc].
  - destruct (strip_trailing_slashes s) as [|c' s'] eqn:Hs; [done|].
    rewrite strip_trailing_slashes_cons, IH. by rewrite decide_True.
  - rewrite strip_trailing_slashes_cons, IH. by rewrite decide_False.
Qed.

(** What is stripped from a concatenation. *)
Lemma strip_trailing_slashes_app (a b : string) :
  strip_trailing_slashes (a ++ b)
  = match strip_trailing_slashes b with
    | EmptyString => strip_trailing_slashes a
    | _ => a ++ strip_trailing_slashes b
    end.
Proof.
  induction a as [|c a IH]; push_append.
  - by destruct (strip_trailing_slashes b).
  - rewrite !strip_trailing_slashes_cons, IH.
    destruct (strip_trailing_slashes b) as [|x y] eqn:Hb; [done|].
    push_append.
    destruct a as [|c' a']; push_append; by destruct (decide (c = "/"%char)).
Qed.

(** X12.  Paths that differ only by slashes at the end are one key: for
    [setFolderStyle], for [removeFolderStyle] and for [getStyleForFolder];
    and a path already normalized is its own key. *)
Theorem trailing_slashes_are_ignored (folderPath styleName : string)
    (scope : Scope) (w : World) :
  strip_trailing_slashes (strip_trailing_slashes folderPath)
    = strip_trailing_slashes folderPath
  ∧ setFolderStyle (folderPath ++ "/") styleName scope w
    = setFolderStyle folderPath styleName scope w
  ∧ removeFolderStyle (folderPath ++ "/") scope w
    = removeFolderStyle folderPath scope w
  ∧ getStyleForFolder (folderPath ++ "/") w = getStyleForFolder folderPath w
  ∧ getStyleForFolder (strip_trailing_slashes folderPath) w
    = getStyleForFolder folderPath w.
Proof.
  split; [apply strip_trailing_slashes_idemp|].
  unfold setFolderStyle, removeFolderStyle, getStyleForFolder, resolve.
  by rewrite strip_trailing_slashes_app_slash, strip_trailing_slashes_idemp.
Qed.

(** ** Associating a folder *)

(** X11.  An association can be resolved at once: if [getStyleTags] gives
    something for [styleName], which is what the tool checks, and the
    normalized path is not ["__proto__"], then after
    [setFolderStyle folderPath styleName scope] the folder resolves to that
    style name and to what [getStyleTags] gave, matched at the normalized
    path itself; this for the project scope, and for the global scope
    provided the project scope has no association for the normalized path.
    What [getStyleTags] gives for every name is as before. *)
Theorem setFolderStyle_then_getStyleForFolder (folderPath styleName : string)
    (t : Lookup (list string)) (scope : Scope) (w : World) :
  getStyleTags styleName w = Some t →
  strip_trailing_slashes folderPath ≠ "__proto__" →
  scope = project
  ∨ folders (scope_config project w) !! strip_trailing_slashes folderPath = None →
  getStyleForFolder folderPath (setFolderStyle folderPath styleName scope w)
  = Some {| style := Own_value styleName; tags := t;
            matchedPath := strip_trailing_slashes folderPath |}
  ∧ ∀ name,
      getStyleTags name (setFolderStyle folderPath styleName scope w)
      = getStyleTags name w.
Proof.
  intros Htags Hpath Hcase.
  set (n := strip_trailing_slashes folderPath) in *.
  set (c := scope_config scope w).
  set (c' := {| styles := styles c; folders := <[n := styleName]> (folders c) |}).
  assert (setFolderStyle folderPath styleName scope w
          = writeScope scope c' (mutate (readScope scope w) c' w)) as Hset.
  { unfold setFolderStyle. fold n. fold (scope_config scope w). fold c.
    unfold js_assign. by rewrite decide_False by (by intros [? _]). }
  pose proof (setFolderStyle_engine folderPath styleName scope w) as Hengine.
  rewrite Hset in *.
  pose proof (scope_config_written scope c' w) as Hown.
  pose proof (scope_config_after_write scope project c' w) as Hp.
  cbv zeta in Hp. fold c in Hp.
  assert (∀ name,
            getStyleTags name
              (writeScope scope c' (mutate (readScope scope w) c' w))
            = getStyleTags name w) as Hstyles.
  { intros name. apply getStyleTags_ext; [done|].
    rewrite !merged_styles_overlay. unfold overlay.
    assert (∀ s, styles (scope_config s
                           (writeScope scope c' (mutate (readScope scope w) c' w)))
                 = styles (scope_config s w)) as Hsame.
    { intros s. by destruct (scope_config_after_write scope s c' w)
        as [[-> ->]| ->]. }
    by rewrite !Hsame. }
  split; [|done].
  unfold getStyleForFolder. apply resolve_exact. fold n.
  apply lookup_style_Some. cbn [Styles.style Styles.tags Styles.matchedPath].
  split; [done|]. split.
  - unfold js_get. rewrite merged_folders_overlay. unfold overlay. destruct scope.
    + destruct Hcase as [?|Hnone]; [done|]. rewrite Hown.
      destruct Hp as [[-> _]| ->].
      * simpl. by rewrite lookup_insert_eq.
      * rewrite Hnone. simpl. by rewrite lookup_insert_eq.
    + rewrite Hown. simpl. by rewrite lookup_insert_eq.
  - cbn [property_key].
    fold (getStyleTags styleName
            (writeScope scope c' (mutate (readScope scope w) c' w))).
    by rewrite Hstyles.
Qed.

(** ** Inheritance *)

(** X13.  Every path below a folder that resolves does resolve: if the
    test that [getStyleForFolder] makes on a key succeeds on the normalized
    folder, then for every [sub] the path [folder/sub] resolves, to a match
    at least as long as the folder; and to the folder's own result, matched
    at the folder, when the test fails on the normalized path [folder/sub]
    and on each of its ancestors longer than the folder. *)
Theorem descendants_inherit (folderPath sub : string) (w : World)
    (r : Resolved) :
  let n := strip_trailing_slashes folderPath in
  let below := strip_trailing_slashes (n ++ "/" ++ sub) in
  let e := engine w in
  let config := getMergedConfig w in
  getStyleForFolder folderPath w = Some r →
  matchedPath r = n →
  (∃ r', getStyleForFolder (n ++ "/" ++ sub) w = Some r'
         ∧ (String.length (matchedPath r) ≤ String.length (matchedPath r'))%nat)
  ∧ ((∀ q, (String.length n < String.length q)%nat →
           q = below ∨ is_ancestor q below →
           lookup_style e config q = None) →
     getStyleForFolder (n ++ "/" ++ sub) w = Some r).
Proof.
  intros n below e config Hres Hpath. subst below.
  assert (lookup_style e config n = Some r) as Hr.
  { unfold getStyleForFolder in Hres. fold e config in Hres.
    destruct (lookup_style e config n) as [r0|] eqn:Hexact.
    - by rewrite (resolve_exact _ _ _ _ Hexact) in Hres.
    - rewrite resolve_parents in Hres by done.
      apply walk_parents_nearest in Hres as ((rest & Hanc) & _ & _).
      fold n in Hanc. rewrite Hpath in Hanc.
      apply (f_equal String.length) in Hanc.
      rewrite !length_append in Hanc. simpl in Hanc. lia. }
  unfold getStyleForFolder. fold e config.
  assert (strip_trailing_slashes n = n) as Hn
    by apply strip_trailing_slashes_idemp.
  assert (strip_trailing_slashes (n ++ "/" ++ sub) = n
          ∨ ∃ t, strip_trailing_slashes (n ++ "/" ++ sub) = n ++ "/" ++ t)
    as [Hsame|[t Hdeeper]].
  { rewrite strip_trailing_slashes_app. push_append.
    rewrite strip_trailing_slashes_cons, decide_True by done.
    destruct (strip_trailing_slashes sub) as [|x y]; [by left|].
    right. by eexists. }
  - split.
    + exists r. split; [|done]. apply resolve_exact. by rewrite Hsame.
    + intros _. apply resolve_exact. by rewrite Hsame.
  - assert (is_ancestor n (strip_trailing_slashes (n ++ "/" ++ sub)))
      as Hanc by (exists t; done).
    assert (String.length n
            < String.length (strip_trailing_slashes (n ++ "/" ++ sub)))%nat
      as Hlen by (rewrite Hdeeper, !length_append; simpl; lia).
    split.
    + destruct (resolve e config (n ++ "/" ++ sub)) as [r'|] eqn:Hres'.
      * exists r'. split; [done|].
        destruct (lookup_style e config
                    (strip_trailing_slashes (n ++ "/" ++ sub))) as [r0|] eqn:Hexact.
        -- rewrite (resolve_exact _ _ _ _ Hexact) in Hres'. injection Hres' as <-.
           rewrite (lookup_style_matchedPath _ _ _ _ Hexact), Hpath. lia.
        -- rewrite resolve_parents in Hres' by done.
           apply walk_parents_nearest in Hres' as (_ & _ & Hlonger).
           destruct (decide (String.length (matchedPath r)
                             ≤ String.length (matchedPath r'))%nat); [done|].
           rewrite (Hlonger n Hanc) in Hr; [done|]. rewrite Hpath in *. lia.
      * exfalso.
        destruct (lookup_style e config
                    (strip_trailing_slashes (n ++ "/" ++ sub))) as [r0|] eqn:Hexact.
        -- by rewrite (resolve_exact _ _ _ _ Hexact) in Hres'.
        -- rewrite resolve_parents in Hres' by done.
           rewrite walk_parents_nothing in Hres'.
           by rewrite (Hres' n Hanc) in Hr.
    + intros Hnone. rewrite resolve_parents by (apply Hnone; [done|by left]).
      apply walk_parents_nearest. rewrite Hpath.
      split; [done|]. split; [done|]. intros q Hq Hlong.
      apply Hnone; [done|by right].
Qed.

(** X14.  [removeFolderStyle] tells whether the normalized path is [in] the
    folder dictionary of the scope: whether the scope has an association
    for it, when the path is not a name that objects inherit, and in every
    case when the scope has one.  If it returns [false], nothing changes at
    all.  If it returns [true], the scope afterwards presents the same
    styles and the same associations but the one for that path.  Removing
    what [setFolderStyle] has just set returns [true], and gives back what
    the scope presented when the path had no association before. *)
Theorem removeFolderStyle_behaviour (folderPath styleName : string)
    (scope : Scope) (w : World) :
  let n := strip_trailing_slashes folderPath in
  let c := scope_config scope w in
  snd (removeFolderStyle folderPath scope w) = js_in (engine w) (folders c) n
  ∧ (plain_name n →
     snd (removeFolderStyle folderPath scope w)
     = bool_decide (is_Some (folders c !! n)))
  ∧ (is_Some (folders c !! n) →
     snd (removeFolderStyle folderPath scope w) = true)
  ∧ (snd (removeFolderStyle folderPath scope w) = false →
     fst (removeFolderStyle folderPath scope w) = w)
  ∧ (snd (removeFolderStyle folderPath scope w) = true →
     scope_config scope (fst (removeFolderStyle folderPath scope w))
     = {| styles := styles c; folders := delete n (folders c) |})
  ∧ snd (removeFolderStyle folderPath scope
           (setFolderStyle folderPath styleName scope w)) = true
  ∧ (folders c !! n = None →
     scope_config scope
       (fst (removeFolderStyle folderPath scope
               (setFolderStyle folderPath styleName scope w)))
     = c).
Proof.
  intros n c.
  assert (∀ w0,
            snd (removeFolderStyle folderPath scope w0)
            = js_in (engine w0) (folders (scope_config scope w0)) n
            ∧ (snd (removeFolderStyle folderPath scope w0) = false →
               fst (removeFolderStyle folderPath scope w0) = w0)
            ∧ (snd (removeFolderStyle folderPath scope w0) = true →
               scope_config scope (fst (removeFolderStyle folderPath scope w0))
               = {| styles := styles (scope_config scope w0);
                    folders := delete n (folders (scope_config scope w0)) |}))
    as Hgeneral.
  { intros w0. unfold removeFolderStyle. fold n.
    change (contents w0 (readScope scope w0)) with (scope_config scope w0).
    destruct (js_in (engine w0) (folders (scope_config scope w0)) n);
      cbn [negb fst snd].
    - split; [done|]. split; [done|]. intros _. apply scope_config_written.
    - by repeat split. }
  destruct (Hgeneral w) as (Hret & Hfalse & Htrue). fold c in Hret, Htrue.
  split; [done|].
  split; [intros Hplain; rewrite Hret; by apply js_in_plain|].
  split; [intros Hsome; rewrite Hret; by apply js_in_own|].
  split; [done|]. split; [done|].
  set (c' := {| styles := styles c;
                folders := js_assign n styleName (folders c) |}).
  assert (setFolderStyle folderPath styleName scope w
          = writeScope scope c' (mutate (readScope scope w) c' w)) as Hset by done.
  assert (scope_config scope (setFolderStyle folderPath styleName scope w) = c')
    as Hc' by (rewrite Hset; apply scope_config_written).
  destruct (Hgeneral (setFolderStyle folderPath styleName scope w))
    as (Hret' & _ & Htrue').
  rewrite Hc' in Hret', Htrue'. cbn [folders styles c'] in Hret', Htrue'.
  rewrite js_in_js_assign in Hret'.
  split; [done|].
  intros Hfree. rewrite (Htrue' Hret'), delete_js_assign by done.
  by destruct c.
Qed.

(** ** Provenance *)

(** X15.  The merged config is the overlay of the project scope on the
    global scope, for styles and for folders, and, the key ["__proto__"]
    apart, which never has a provenance, [_sources] tells where each entry
    comes from: a key of the project scope has source "project", whether or
    not the global scope has it too, a key of the global scope alone has
    source "global", and a key of neither has none; so [_sources.styles] has
    the keys of the merged styles and [_sources.folders] those of the
    merged folders.  In particular a name other than ["__proto__"] defined
    in both scopes gets the project's tags with source "project". *)
Theorem sources_cover_merged_config (g p : StyleConfig) :
  (∀ name, m_styles (merge g p) !! name = overlay (styles g) (styles p) name)
  ∧ (∀ path, m_folders (merge g p) !! path
             = overlay (folders g) (folders p) path)
  ∧ (∀ name, name ≠ "__proto__" →
       src_styles (_sources (merge g p)) !! name
       = provenance (styles g) (styles p) name)
  ∧ (∀ path, path ≠ "__proto__" →
       src_folders (_sources (merge g p)) !! path
       = provenance (folders g) (folders p) path)
  ∧ src_styles (_sources (merge g p)) !! "__proto__" = None
  ∧ src_folders (_sources (merge g p)) !! "__proto__" = None
  ∧ (∀ name, name ≠ "__proto__" →
       (is_Some (src_styles (_sources (merge g p)) !! name)
        ↔ is_Some (m_styles (merge g p) !! name)))
  ∧ (∀ path, path ≠ "__proto__" →
       (is_Some (src_folders (_sources (merge g p)) !! path)
        ↔ is_Some (m_folders (merge g p) !! path)))
  ∧ (∀ name global_tags project_tags,
       name ≠ "__proto__" →
       styles g !! name = Some global_tags →
       styles p !! name = Some project_tags →
       m_styles (merge g p) !! name = Some project_tags
       ∧ src_styles (_sources (merge g p)) !! name = Some project)
  ∧ (∀ path global_style project_style,
       path ≠ "__proto__" →
       folders g !! path = Some global_style →
       folders p !! path = Some project_style →
       m_folders (merge g p) !! path = Some project_style
       ∧ src_folders (_sources (merge g p)) !! path = Some project).
Proof.
  destruct (merge_lookup g p) as (Hs & Hf & Hss & Hsf & Hps & Hpf).
  do 6 (split; [done|]).
  split; [|split; [|split]].
  - intros name Hname. rewrite Hs, Hss by done. unfold overlay, provenance.
    destruct (styles p !! name), (styles g !! name); split; intros [? ?];
      by eauto.
  - intros path Hpath. rewrite Hf, Hsf by done. unfold overlay, provenance.
    destruct (folders p !! path), (folders g !! path); split; intros [? ?];
      by eauto.
  - intros name tg tp Hname Hg Hp. rewrite Hs, Hss by done.
    unfold overlay, provenance. by rewrite Hp.
  - intros path sg sp Hpath Hg Hp. rewrite Hf, Hsf by done.
    unfold overlay, provenance. by rewrite Hp.
Qed.

(** ** What a resolution returns *)

Lemma style_tags_truthy e config styleName t :
  style_tags e config styleName = Some t → tags_truthy t = true.
Proof.
  unfold style_tags. destruct (js_get e (m_styles config) styleName) as [t0|];
    [|done].
  destruct (tags_truthy t0) eqn:Ht; [|done]. by intros [= <-].
Qed.

(** X16.  Whatever [getStyleForFolder] returns is consistent with the merged
    config: the style is what the folder dictionary gives for the matched
    path, the tags are what [getStyleTags] gives for that style, and are
    truthy, and the matched path is the normalized input or one of its
    ancestor directories. *)
Theorem getStyleForFolder_sound (folderPath : string) (w : World)
    (r : Resolved) :
  getStyleForFolder folderPath w = Some r →
  js_get (engine w) (m_folders (getMergedConfig w)) (matchedPath r)
    = Some (style r)
  ∧ getStyleTags (property_key (style r)) w = Some (tags r)
  ∧ tags_truthy (tags r) = true
  ∧ (matchedPath r = strip_trailing_slashes folderPath
     ∨ is_ancestor (matchedPath r) (strip_trailing_slashes folderPath)).
Proof.
  unfold getStyleForFolder, getStyleTags. intros Hres.
  destruct (lookup_style (engine w) (getMergedConfig w)
              (strip_trailing_slashes folderPath))
    as [r0|] eqn:Hexact.
  - rewrite (resolve_exact _ _ _ _ Hexact) in Hres. injection Hres as <-.
    apply lookup_style_Some in Hexact as (Hpath & Hfolder & Hstyle).
    rewrite Hpath. split; [done|]. split; [done|].
    split; [by eapply style_tags_truthy|by left].
  - rewrite resolve_parents in Hres by done.
    apply walk_parents_nearest in Hres as (Hanc & Hlookup & _).
    apply lookup_style_Some in Hlookup as (_ & Hfolder & Hstyle).
    split; [done|]. split; [done|].
    split; [by eapply style_tags_truthy|by right].
Qed.

(** ** Deleting a style from a scope that has a file *)

(** X17.  Where the scope's file exists and parses, [deleteStyle] tells
    whether the name is [in] the style dictionary of the scope: whether the
    scope has the style, when the name is not one that objects inherit, and
    in every case when the scope has it.  If it returns [false] nothing
    changes; if it returns [true] the scope no longer has the style nor any
    association to it, and keeps its other styles and associations.  In
    both cases the file of the other scope, the default dictionaries and
    what the other scope presents are untouched. *)
Theorem deleteStyle_with_own_file (name : string) (scope : Scope) (w : World)
    (s : option (gmap string (list string))) (f : option (gmap string string)) :
  scope_file scope w = Some (Parsed s f) →
  let other := other_scope scope in
  let c := scope_config scope w in
  let w' := fst (deleteStyle name scope w) in
  snd (deleteStyle name scope w) = js_in (engine w) (styles c) name
  ∧ (plain_name name →
     snd (deleteStyle name scope w) = bool_decide (is_Some (styles c !! name)))
  ∧ (is_Some (styles c !! name) → snd (deleteStyle name scope w) = true)
  ∧ (snd (deleteStyle name scope w) = false → w' = w)
  ∧ (snd (deleteStyle name scope w) = true →
     styles (scope_config scope w') = delete name (styles c)
     ∧ ∀ folder,
         folders (scope_config scope w') !! folder
         = match folders c !! folder with
           | Some styleName =>
               if decide (styleName = name) then None else Some styleName
           | None => None
           end)
  ∧ scope_file other w' = scope_file other w
  ∧ DEFAULT_CONFIG w' = DEFAULT_CONFIG w
  ∧ scope_config other w' = scope_config other w.
Proof.
  intros Hfile other c w'. subst other c w'.
  assert (snd (deleteStyle name scope w)
          = js_in (engine w) (styles (scope_config scope w)) name) as Hret.
  { unfold deleteStyle, styles_in, styles_prototype, scope_config, readScope.
    rewrite Hfile. cbn [readConfigFile contents]. rewrite orb_false_r.
    by destruct (js_in _ _ _). }
  split; [done|].
  split; [intros Hplain; rewrite Hret; by apply js_in_plain|].
  split; [intros Hsome; rewrite Hret; by apply js_in_own|].
  rewrite Hret. unfold deleteStyle, styles_in, styles_prototype, scope_config,
    readScope.
  rewrite Hfile. cbn [readConfigFile contents]. rewrite orb_false_r.
  destruct (js_in (engine w) (styles {| styles := default ∅ s;
                                        folders := default ∅ f |}) name);
    cbn [negb fst snd mutate].
  - split; [done|]. split.
    + intros _.
      fold (readScope scope
              (writeScope scope
                 {| styles := delete name (styles {| styles := default ∅ s;
                                                     folders := default ∅ f |});
                    folders := remove_associations name
                                 (folders {| styles := default ∅ s;
                                             folders := default ∅ f |}) |} w)).
      fold (scope_config scope
              (writeScope scope
                 {| styles := delete name (styles {| styles := default ∅ s;
                                                     folders := default ∅ f |});
                    folders := remove_associations name
                                 (folders {| styles := default ∅ s;
                                             folders := default ∅ f |}) |} w)).
      rewrite scope_config_writeScope. cbn [styles folders].
      split; [done|intros folder; apply lookup_remove_associations].
    + rewrite (scope_file_writeScope_other scope (other_scope scope)) by done.
      split; [done|]. split; [by destruct scope|].
      by destruct scope.
  - split; [done|]. split; [done|]. done.
Qed.

(** ** Resolution, in general *)

Lemma style_tags_plain e config styleName :
  plain_name styleName →
  style_tags e config styleName = Own_value <$> m_styles config !! styleName.
Proof.
  intros Hname. unfold style_tags. rewrite js_get_plain by done.
  by destruct (m_styles config !! styleName).
Qed.

(** X18.  [getStyleForFolder] strips the slashes that end the path, tries
    the normalized path and then its ancestor directories, the nearest
    first, and returns the result of the first test that succeeds: the test on the normalized path if it
    succeeds, otherwise the test on the longest ancestor on which it
    succeeds, and it returns nothing exactly when the test fails on the
    normalized path and on every ancestor.  The test on a key succeeds when
    the key is [in] the merged folders and what the merged styles give for
    the associated name is truthy; for a key and an associated name that
    objects do not inherit, that is when the key has an association and
    the merged styles have the associated name, whose tags are returned.
    So a dangling association with such a name, at the path or at an
    ancestor, is passed over. *)
Theorem getStyleForFolder_nearest (folderPath : string) (w : World) :
  let n := strip_trailing_slashes folderPath in
  let e := engine w in
  let config := getMergedConfig w in
  ((∃ k : nat,
      folderPath = n ++ String.string_of_list_ascii (replicate k "/"%char))
   ∧ ∀ front, n ≠ front ++ "/")
  ∧ (∀ r, lookup_style e config n = Some r →
       getStyleForFolder folderPath w = Some r ∧ matchedPath r = n)
  ∧ (lookup_style e config n = None →
     ∀ r, getStyleForFolder folderPath w = Some r
          ↔ is_ancestor (matchedPath r) n
            ∧ lookup_style e config (matchedPath r) = Some r
            ∧ ∀ q, is_ancestor q n →
                (String.length (matchedPath r) < String.length q)%nat →
                lookup_style e config q = None)
  ∧ (getStyleForFolder folderPath w = None
     ↔ lookup_style e config n = None
       ∧ ∀ q, is_ancestor q n → lookup_style e config q = None)
  ∧ (∀ key,
       plain_name key →
       lookup_style e config key
       = match m_folders config !! key with
         | Some styleName =>
             match style_tags e config styleName with
             | Some t => Some {| style := Own_value styleName; tags := t;
                                 matchedPath := key |}
             | None => None
             end
         | None => None
         end)
  ∧ (∀ styleName,
       plain_name styleName →
       style_tags e config styleName
       = Own_value <$> m_styles config !! styleName).
Proof.
  intros n e config. unfold getStyleForFolder. fold e config.
  split; [apply strip_trailing_slashes_spec|].
  split; [|split; [|split; [|split]]].
  - intros r Hr. split; [by apply resolve_exact|].
    by apply lookup_style_matchedPath in Hr.
  - intros Hnone r. rewrite resolve_parents by done.
    apply walk_parents_nearest.
  - destruct (lookup_style e config n) as [r|] eqn:Hn.
    + rewrite (resolve_exact _ _ _ r Hn). split; [done|]. by intros [? _].
    + rewrite resolve_parents by done. rewrite walk_parents_nothing.
      split; [done|]. by intros [_ ?].
  - intros key Hkey. unfold lookup_style. rewrite js_get_plain by done.
    by destruct (m_folders config !! key).
  - intros styleName Hname. by apply style_tags_plain.
Qed.

(** *** Instances on the sample configs *)

Lemma getStyleForFolder_sound_witness :
  getStyleForFolder "src/ui/button"
    (setFolderStyle "src/ui" "S1" project
       (saveStyle "S1" ["t1"] global (fresh_world "/proj")))
  = Some {| style := Own_value "S1"; tags := Own_value ["t1"];
            matchedPath := "src/ui" |}
  ∧ getStyleTags "S1"
      (setFolderStyle "src/ui" "S1" project
         (saveStyle "S1" ["t1"] global (fresh_world "/proj")))
    = Some (Own_value ["t1"]).
Proof.
  split; [reflexivity|].
  apply (getStyleForFolder_sound "src/ui/button"
           (setFolderStyle "src/ui" "S1" project
              (saveStyle "S1" ["t1"] global (fresh_world "/proj")))
           {| style := Own_value "S1"; tags := Own_value ["t1"];
              matchedPath := "src/ui" |}
           eq_refl).
Defined.

Lemma deleteStyle_with_own_file_witness :
  scope_file project
    (setFolderStyle "/a" "x" project
       (saveStyle "x" ["t"] project (fresh_world "/proj")))
  = Some (Parsed (Some {["x" := ["t"]]}) (Some {["/a" := "x"]}))
  ∧ snd (deleteStyle "x" project
           (setFolderStyle "/a" "x" project
              (saveStyle "x" ["t"] project (fresh_world "/proj"))))
    = true.
Proof.
  split; [reflexivity|].
  destruct (deleteStyle_with_own_file "x" project
              (setFolderStyle "/a" "x" project
                 (saveStyle "x" ["t"] project (fresh_world "/proj")))
              (Some {["x" := ["t"]]}) (Some {["/a" := "x"]}) eq_refl)
    as (Hret & _).
  rewrite Hret. reflexivity.
Defined.

Lemma setFolderStyle_then_getStyleForFolder_witness :
  getStyleTags "S1" (saveStyle "S1" ["t1"] global (fresh_world "/proj"))
    = Some (Own_value ["t1"])
  ∧ strip_trailing_slashes "src/ui//" ≠ "__proto__"
  ∧ getStyleForFolder "src/ui//"
      (setFolderStyle "src/ui//" "S1" project
         (saveStyle "S1" ["t1"] global (fresh_world "/proj")))
    = Some {| style := Own_value "S1"; tags := Own_value ["t1"];
              matchedPath := "src/ui" |}.
Proof.
  assert (strip_trailing_slashes "src/ui//" ≠ "__proto__") as Hpath.
  { intros Heq. vm_compute in Heq. discriminate Heq. }
  split; [reflexivity|]. split; [exact Hpath|].
  apply (setFolderStyle_then_getStyleForFolder "src/ui//" "S1"
           (Own_value ["t1"]) project
           (saveStyle "S1" ["t1"] global (fresh_world "/proj")) eq_refl Hpath).
  left. reflexivity.
Defined.

Lemma descendants_inherit_witness :
  getStyleForFolder "/a/b/"
    (setFolderStyle "/a/b" "S1" project
       (saveStyle "S1" ["t1"] global (fresh_world "/proj")))
  = Some {| style := Own_value "S1"; tags := Own_value ["t1"];
            matchedPath := "/a/b" |}
  ∧ ∃ r', getStyleForFolder ("/a/b" ++ "/" ++ "c/d/")
            (setFolderStyle "/a/b" "S1" project
               (saveStyle "S1" ["t1"] global (fresh_world "/proj")))
          = Some r'
          ∧ (4 ≤ String.length (matchedPath r'))%nat.
Proof.
  split; [reflexivity|].
  exact (proj1 (descendants_inherit "/a/b/" "c/d/"
                  (setFolderStyle "/a/b" "S1" project
                     (saveStyle "S1" ["t1"] global (fresh_world "/proj")))
                  {| style := Own_value "S1"; tags := Own_value ["t1"];
                     matchedPath := "/a/b" |}
                  eq_refl eq_refl)).
Defined.

End StylesMore.
